(** * opentype.js: glyph outlines and bezier paths

    A shallow embedding of [src/glyph.js] (the [Glyph] object) and of the
    [Path] object it draws with.  JavaScript numbers are IEEE 754 binary64
    values and are modelled by Rocq's primitive [float]; the built-in
    functions the code calls ([Math.min], [Math.max], [Math.round],
    [Number.prototype.toFixed], number-to-string conversion) are modelled
    after ECMAScript in module [JS].  Functions that can throw return a
    [completion]. *)

From Stdlib Require Import ZArith List String Ascii Bool Lia Floats.
Import ListNotations.

Set Warnings "-inexact-float".

Open Scope string_scope.
Open Scope list_scope.

(** ** JavaScript values, completions and [Math] built-ins *)

Module JS.

(** The exceptions the modelled code can raise. *)
Inductive error : Type :=
| TypeError (msg : string)
| RangeError (msg : string)
| Error (msg : string).

(** The outcome of running a function body: a value, or a thrown error. *)
Inductive completion (A : Type) : Type :=
| Normal (a : A)
| Throw (e : error).
Arguments Normal {A} a.
Arguments Throw {A} e.

Definition bind {A B : Type} (c : completion A) (k : A -> completion B)
  : completion B :=
  match c with
  | Normal a => k a
  | Throw e => Throw e
  end.

(** [o.f] where [o] may be [null] or [undefined]: reading a property of
    either throws a [TypeError]. *)
Definition deref {A : Type} (o : option A) (what : string) : completion A :=
  match o with
  | Some a => Normal a
  | None => Throw (TypeError what)
  end.

(** [v !== undefined ? v : d] *)
Definition or_default {A : Type} (v : option A) (d : A) : A :=
  match v with
  | Some a => a
  | None => d
  end.

(** Truthiness of a number: [+0], [-0] and [NaN] are falsy. *)
Definition truthy_number (v : float) : bool :=
  negb (is_zero v || is_nan v).

(** Truthiness of an integer-valued number. *)
Definition truthy_int (v : Z) : bool := negb (v =? 0)%Z.

(** Truthiness of a string: only the empty string is falsy. *)
Definition truthy_string (s : string) : bool :=
  match s with
  | EmptyString => false
  | String _ _ => true
  end.

(** Truthiness of a value that is a string or [null]. *)
Definition truthy (v : option string) : bool :=
  match v with
  | Some s => truthy_string s
  | None => false
  end.

Definition is_neg_zero (v : float) : bool := is_zero v && get_sign v.
Definition is_pos_zero (v : float) : bool := is_zero v && negb (get_sign v).

(** [Math.min(...coerced)]: [+Infinity] for no argument, [NaN] as soon
    as one argument is [NaN], and [-0] is smaller than [+0]. *)
Fixpoint min_from (lowest : float) (coerced : list float) : float :=
  match coerced with
  | [] => lowest
  | number :: rest =>
      if is_nan number then nan
      else if is_neg_zero number && is_pos_zero lowest
           then min_from number rest
      else if (number <? lowest)%float then min_from number rest
      else min_from lowest rest
  end.

Definition Math_min (coerced : list float) : float :=
  min_from infinity coerced.

(** [Math.max(...coerced)]: [-Infinity] for no argument, [NaN] as soon
    as one argument is [NaN], and [+0] is larger than [-0]. *)
Fixpoint max_from (highest : float) (coerced : list float) : float :=
  match coerced with
  | [] => highest
  | number :: rest =>
      if is_nan number then nan
      else if is_pos_zero number && is_neg_zero highest
           then max_from number rest
      else if (highest <? number)%float then max_from number rest
      else max_from highest rest
  end.

Definition Math_max (coerced : list float) : float :=
  max_from neg_infinity coerced.

(** *** Numbers as exact values

    [Prim2SF v] gives the sign, the mantissa [m] and the exponent [e] of a
    finite non-zero double: its exact value is [m * 2^e]. *)

Infix "+++" := String.append (right associativity, at level 60).

Open Scope Z_scope.

(** [m * 2^e] is an integer: [e] is not negative, or [2^-e] divides [m]. *)
Definition integral_mantissa (m : positive) (e : Z) : bool :=
  (0 <=? e) || (Zpos m mod 2 ^ (- e) =? 0).

(** An integral Number, in ECMAScript's words: finite and whole. *)
Definition is_integral (v : float) : bool :=
  match Prim2SF v with
  | S754_zero _ => true
  | S754_finite _ m e => integral_mantissa m e
  | _ => false
  end.

(** The double whose value is the positive integer [n], for [n < 2^53]:
    the mantissa is [n] shifted to 53 bits. *)
Definition of_small_pos (s : bool) (n : positive) : float :=
  let d := Zpos (digits2_pos n) in
  SF2Prim (S754_finite s (Z.to_pos (Zpos n * 2 ^ (53 - d))) (d - 53)).

(** [Math.round(v)]: [v] itself when it is not finite or is integral;
    otherwise the integer closest to [v], the one towards [+Infinity] on a
    tie, that is [floor(v + 1/2)] computed exactly; a zero result keeps the
    sign of [v]. *)
Definition Math_round (v : float) : float :=
  match Prim2SF v with
  | S754_finite s m e =>
      if integral_mantissa m e then v
      else
        let k := - e in
        let r :=
          ((if s then - (2 * Zpos m) else 2 * Zpos m) + 2 ^ k) / 2 ^ (k + 1) in
        match r with
        | Z0 => if s then neg_zero else zero
        | Zpos n => of_small_pos false n
        | Zneg n => of_small_pos true n
        end
  | _ => v
  end.

(** [truncate(v) modulo 2^32], read as a signed 32-bit integer: the
    operand conversion of the bitwise operators. *)
Definition ToInt32 (v : float) : Z :=
  match Prim2SF v with
  | S754_finite s m e =>
      let int := if 0 <=? e then Zpos m * 2 ^ e else Zpos m / 2 ^ (- e) in
      let int := if s then - int else int in
      let int32bit := int mod 2 ^ 32 in
      if 2 ^ 31 <=? int32bit then int32bit - 2 ^ 32 else int32bit
  | _ => 0
  end.

(** *** Decimal digits *)

Definition digit_char (d : Z) : ascii :=
  ascii_of_nat (48 + Z.to_nat d).

Fixpoint digits_fuel (fuel : nat) (n : Z) (acc : string) : string :=
  match fuel with
  | O => acc
  | S fuel' =>
      let acc' := String (digit_char (n mod 10)) acc in
      if n <? 10 then acc' else digits_fuel fuel' (n / 10) acc'
  end.

(** The decimal digits of a non-negative integer, most significant first. *)
Definition digits_of (n : Z) : string :=
  digits_fuel (S (Z.to_nat (Z.log2 n))) n EmptyString.

Fixpoint zeros (n : nat) : string :=
  match n with
  | O => EmptyString
  | S n' => String "0" (zeros n')
  end.

(** *** Number to string

    [Number::toString] prints the shortest decimal [t * 10^p] that reads
    back as the same double, the closest to it when several are as
    short.  With the value [m * 2^e], and in units of [2^(e-2)], the value
    is [4m] and the reals that round to it are those from [4m - below] to
    [4m + 2], ends included when [m] is even. *)

Section Shortest.

Variables (m : positive) (e : Z).

Definition below : Z :=
  if (Zpos m =? 2 ^ 52) && (-1074 <? e) then 1 else 2.
Definition lo : Z := 4 * Zpos m - below.
Definition hi : Z := 4 * Zpos m + 2.
Definition closed : bool := Z.even (Zpos m).

(** [t * 10^p], in units of [2^(e-2)], is [t * scaleA p / scaleB p]. *)
Definition scaleA (p : Z) : Z := 10 ^ (Z.max p 0) * 2 ^ (Z.max (2 - e) 0).
Definition scaleB (p : Z) : Z := 10 ^ (Z.max (- p) 0) * 2 ^ (Z.max (e - 2) 0).

(** Division rounding up. *)
Definition cdiv (a b : Z) : Z := - ((- a) / b).

(** The [t] for which [t * 10^p] rounds to the value and is closest to
    it, when there is one. *)
Definition candidate (p : Z) : option Z :=
  let A := scaleA p in
  let B := scaleB p in
  let t_lo := if closed then cdiv (lo * B) A else (lo * B) / A + 1 in
  let t_hi := if closed then (hi * B) / A else cdiv (hi * B) A - 1 in
  if t_lo <=? t_hi then
    let X := 4 * Zpos m * B in
    let q := X / A in
    let r := X - q * A in
    let near :=
      if 2 * r <? A then q
      else if A <? 2 * r then q + 1
      else if Z.even q then q else q + 1 in
    Some (Z.max t_lo (Z.min t_hi near))
  else None.

(** The largest [p] that has a candidate gives the fewest digits. *)
Fixpoint search (fuel : nat) (p : Z) : Z * Z :=
  match fuel with
  | O => (0, 0)
  | S fuel' =>
      match candidate p with
      | Some t => (t, p)
      | None => search fuel' (p - 1)
      end
  end.

(** A power of ten above the value: [2^b < 10^(b * 0.30103 + 2)]. *)
Definition decimal_bound : Z :=
  (Zpos (digits2_pos m) + e) * 30103 / 100000 + 2.

Definition shortest : Z * Z := search 40 decimal_bound.

End Shortest.

(** ["e+20"], ["e-7"]: the exponent of scientific notation for a number
    whose first digit has weight [10^(n-1)]. *)
Definition exponent_part (n : Z) : string :=
  let e := n - 1 in
  String "e" (String (if e <? 0 then "-"%char else "+"%char)
                (digits_of (Z.abs e))).

(** The layout of [Number::toString]: [s] holds the [k] significant
    digits, the first of weight [10^(n-1)]. *)
Definition format_digits (s : string) (n : Z) : string :=
  let k := Z.of_nat (String.length s) in
  if (k <=? n) && (n <=? 21) then
    s +++ zeros (Z.to_nat (n - k))
  else if (0 <? n) && (n <=? 21) then
    substring 0 (Z.to_nat n) s +++ "." +++
    substring (Z.to_nat n) (Z.to_nat (k - n)) s
  else if (-6 <? n) && (n <=? 0) then
    "0." +++ zeros (Z.to_nat (- n)) +++ s
  else if k =? 1 then
    s +++ exponent_part n
  else
    substring 0 1 s +++ "." +++ substring 1 (Z.to_nat (k - 1)) s +++
    exponent_part n.

(** [Number::toString(v)], radix 10: the conversion [String(v)] and
    ['' + v] apply to a number. *)
Definition Number_toString (v : float) : string :=
  match Prim2SF v with
  | S754_nan => "NaN"
  | S754_zero _ => "0"
  | S754_infinity s => if s then "-Infinity" else "Infinity"
  | S754_finite s m e =>
      let '(t, p) := shortest m e in
      let digits := digits_of t in
      let n := Z.of_nat (String.length digits) + p in
      (if s then "-" else EmptyString) +++ format_digits digits n
  end.

(** [Number.prototype.toFixed(fractionDigits)], for an integer argument:
    a [RangeError] outside 0..100; the number itself when it is not finite
    or is [10^21] or more; otherwise the integer [n] closest to
    [|v| * 10^f], the larger one on a tie, printed with the point before
    its last [f] digits. *)
Definition Number_toFixed (v : float) (fractionDigits : Z) : completion string :=
  let f := fractionDigits in
  if (f <? 0) || (100 <? f) then
    Throw (RangeError "toFixed() digits argument must be between 0 and 100")
  else
    match Prim2SF v with
    | S754_finite s m e =>
        let sign := if s then "-" else EmptyString in
        if 10 ^ 21 * 2 ^ (Z.max (- e) 0) <=? Zpos m * 2 ^ (Z.max e 0) then
          Normal (Number_toString v)
        else
          let n :=
            (2 * Zpos m * 2 ^ (Z.max e 0) * 10 ^ f + 2 ^ (Z.max (- e) 0))
            / (2 * 2 ^ (Z.max (- e) 0)) in
          let m := digits_of n in
          Normal (sign +++
            (if f =? 0 then m
             else
               let k := Z.of_nat (String.length m) in
               let m :=
                 if k <=? f then zeros (Z.to_nat (f + 1 - k)) +++ m else m in
               let k := Z.of_nat (String.length m) in
               substring 0 (Z.to_nat (k - f)) m +++ "." +++
               substring (Z.to_nat (k - f)) (Z.to_nat f) m))
    | S754_zero _ =>
        Normal (if f =? 0 then "0" else "0." +++ zeros (Z.to_nat f))
    | _ => Normal (Number_toString v)
    end.

Close Scope Z_scope.

End JS.

Import JS.

Notation "x <- c ;; k" := (JS.bind c (fun x => k))
  (at level 61, c at next level, right associativity).
Infix "+++" := String.append (right associativity, at level 60).

(** A double quote, for the attribute values of [toSVG]. *)
Definition dquote : string := String "034"%char EmptyString.

(** ** Path commands *)

(** The command objects [Path]'s methods push: [{type: 'M', x, y}],
    [{type: 'L', x, y}], [{type: 'C', x1, y1, x2, y2, x, y}],
    [{type: 'Q', x1, y1, x, y}] and [{type: 'Z'}]. *)
Inductive Command : Type :=
| MoveTo (x y : float)
| LineTo (x y : float)
| CurveTo (x1 y1 x2 y2 x y : float)
| QuadTo (x1 y1 x y : float)
| ClosePath.

Module Cmd.

(** [cmd.type] *)
Definition type (cmd : Command) : string :=
  match cmd with
  | MoveTo _ _ => "M"
  | LineTo _ _ => "L"
  | CurveTo _ _ _ _ _ _ => "C"
  | QuadTo _ _ _ _ => "Q"
  | ClosePath => "Z"
  end.

(** The coordinate fields, read as numbers.  A field the command does
    not have is [undefined] in the source, which every numeric use
    coerces to [NaN]. *)
Definition x (cmd : Command) : float :=
  match cmd with
  | MoveTo x _ | LineTo x _ | CurveTo _ _ _ _ x _ | QuadTo _ _ x _ => x
  | ClosePath => nan
  end.

Definition y (cmd : Command) : float :=
  match cmd with
  | MoveTo _ y | LineTo _ y | CurveTo _ _ _ _ _ y | QuadTo _ _ _ y => y
  | ClosePath => nan
  end.

Definition x1 (cmd : Command) : float :=
  match cmd with
  | CurveTo x1 _ _ _ _ _ | QuadTo x1 _ _ _ => x1
  | _ => nan
  end.

Definition y1 (cmd : Command) : float :=
  match cmd with
  | CurveTo _ y1 _ _ _ _ | QuadTo _ y1 _ _ => y1
  | _ => nan
  end.

Definition x2 (cmd : Command) : float :=
  match cmd with
  | CurveTo _ _ x2 _ _ _ => x2
  | _ => nan
  end.

Definition y2 (cmd : Command) : float :=
  match cmd with
  | CurveTo _ _ _ y2 _ _ => y2
  | _ => nan
  end.

(** [cmd.type === t] *)
Definition has_type (cmd : Command) (t : string) : bool :=
  String.eqb (type cmd) t.

(** [cmd.x !== undefined], [cmd.x1 !== undefined], [cmd.x2 !== undefined] *)
Definition has_x (cmd : Command) : bool :=
  match cmd with
  | ClosePath => false
  | _ => true
  end.

Definition has_x1 (cmd : Command) : bool :=
  match cmd with
  | CurveTo _ _ _ _ _ _ | QuadTo _ _ _ _ => true
  | _ => false
  end.

Definition has_x2 (cmd : Command) : bool :=
  match cmd with
  | CurveTo _ _ _ _ _ _ => true
  | _ => false
  end.

End Cmd.

(** ** The Path object *)

Module Path.

(** [fill] and [stroke] hold a colour string or [null] ([None]). *)
Record Path : Type := mkPath {
  commands : list Command;
  fill : option string;
  stroke : option string;
  strokeWidth : float
}.

(** [new Path()] *)
Definition new : Path :=
  {| commands := []; fill := Some "black"; stroke := None; strokeWidth := 1%float |}.

(** [this.commands.push(cmd)] *)
Definition push (this : Path) (cmd : Command) : Path :=
  {| commands := commands this ++ [cmd];
     fill := fill this;
     stroke := stroke this;
     strokeWidth := strokeWidth this |}.

Definition moveTo (this : Path) (x y : float) : Path :=
  push this (MoveTo x y).

Definition lineTo (this : Path) (x y : float) : Path :=
  push this (LineTo x y).

Definition curveTo (this : Path) (x1 y1 x2 y2 x y : float) : Path :=
  push this (CurveTo x1 y1 x2 y2 x y).
Definition bezierCurveTo := curveTo.

Definition quadTo (this : Path) (x1 y1 x y : float) : Path :=
  push this (QuadTo x1 y1 x y).
Definition quadraticCurveTo := quadTo.

Definition close (this : Path) : Path := push this ClosePath.
Definition closePath := close.

(** [extend]: [Array.prototype.push.apply(this.commands, pathOrCommands)],
    given another path ([inl]) or a bare list of commands ([inr]). *)
Definition extend (this : Path) (pathOrCommands : Path + list Command) : Path :=
  let pathOrCommands :=
    match pathOrCommands with
    | inl other => commands other
    | inr cmds => cmds
    end in
  {| commands := commands this ++ pathOrCommands;
     fill := fill this;
     stroke := stroke this;
     strokeWidth := strokeWidth this |}.

(** The drawing context [draw] is given: the methods and properties of a
    2D canvas context it uses, each acting on the state of the sink. *)
Class Context2D (S : Type) : Type := {
  ctx_beginPath : S -> S;
  ctx_moveTo : float -> float -> S -> S;
  ctx_lineTo : float -> float -> S -> S;
  ctx_bezierCurveTo : float -> float -> float -> float -> float -> float -> S -> S;
  ctx_quadraticCurveTo : float -> float -> float -> float -> S -> S;
  ctx_closePath : S -> S;
  ctx_set_fillStyle : string -> S -> S;
  ctx_fill : S -> S;
  ctx_set_strokeStyle : string -> S -> S;
  ctx_set_lineWidth : float -> S -> S;
  ctx_stroke : S -> S
}.

(** One iteration of the loop of [draw]. *)
Definition draw_step {S : Type} `{Context2D S} (ctx : S) (cmd : Command) : S :=
  if Cmd.has_type cmd "M" then
    ctx_moveTo (Cmd.x cmd) (Cmd.y cmd) ctx
  else if Cmd.has_type cmd "L" then
    ctx_lineTo (Cmd.x cmd) (Cmd.y cmd) ctx
  else if Cmd.has_type cmd "C" then
    ctx_bezierCurveTo (Cmd.x1 cmd) (Cmd.y1 cmd) (Cmd.x2 cmd) (Cmd.y2 cmd)
      (Cmd.x cmd) (Cmd.y cmd) ctx
  else if Cmd.has_type cmd "Q" then
    ctx_quadraticCurveTo (Cmd.x1 cmd) (Cmd.y1 cmd) (Cmd.x cmd) (Cmd.y cmd) ctx
  else if Cmd.has_type cmd "Z" then
    ctx_closePath ctx
  else ctx.

(** [Path.prototype.draw] *)
Definition draw {S : Type} `{Context2D S} (this : Path) (ctx : S) : S :=
  let ctx := ctx_beginPath ctx in
  let ctx := fold_left draw_step (commands this) ctx in
  let ctx :=
    match fill this with
    | Some color =>
        if truthy_string color
        then ctx_fill (ctx_set_fillStyle color ctx)
        else ctx
    | None => ctx
    end in
  match stroke this with
  | Some color =>
      if truthy_string color
      then ctx_stroke (ctx_set_lineWidth (strokeWidth this)
                         (ctx_set_strokeStyle color ctx))
      else ctx
  | None => ctx
  end.

(** The calls a context can receive from [draw], as data. *)
Inductive Call : Type :=
| BeginPath
| CallMoveTo (x y : float)
| CallLineTo (x y : float)
| CallBezierCurveTo (x1 y1 x2 y2 x y : float)
| CallQuadraticCurveTo (x1 y1 x y : float)
| CallClosePath
| SetFillStyle (color : string)
| Fill
| SetStrokeStyle (color : string)
| SetLineWidth (width : float)
| Stroke.

(** Any sink, observed: its state is paired with the list of calls it has
    received so far, oldest first. *)
#[global] Instance Observed (S : Type) `{Context2D S} : Context2D (S * list Call) := {
  ctx_beginPath '(s, log) := (ctx_beginPath s, log ++ [BeginPath]);
  ctx_moveTo x y '(s, log) := (ctx_moveTo x y s, log ++ [CallMoveTo x y]);
  ctx_lineTo x y '(s, log) := (ctx_lineTo x y s, log ++ [CallLineTo x y]);
  ctx_bezierCurveTo x1 y1 x2 y2 x y '(s, log) :=
    (ctx_bezierCurveTo x1 y1 x2 y2 x y s, log ++ [CallBezierCurveTo x1 y1 x2 y2 x y]);
  ctx_quadraticCurveTo x1 y1 x y '(s, log) :=
    (ctx_quadraticCurveTo x1 y1 x y s, log ++ [CallQuadraticCurveTo x1 y1 x y]);
  ctx_closePath '(s, log) := (ctx_closePath s, log ++ [CallClosePath]);
  ctx_set_fillStyle c '(s, log) := (ctx_set_fillStyle c s, log ++ [SetFillStyle c]);
  ctx_fill '(s, log) := (ctx_fill s, log ++ [Fill]);
  ctx_set_strokeStyle c '(s, log) := (ctx_set_strokeStyle c s, log ++ [SetStrokeStyle c]);
  ctx_set_lineWidth w '(s, log) := (ctx_set_lineWidth w s, log ++ [SetLineWidth w]);
  ctx_stroke '(s, log) := (ctx_stroke s, log ++ [Stroke])
}.

(** The primitive call a command stands for. *)
Definition call_of (cmd : Command) : Call :=
  match cmd with
  | MoveTo x y => CallMoveTo x y
  | LineTo x y => CallLineTo x y
  | CurveTo x1 y1 x2 y2 x y => CallBezierCurveTo x1 y1 x2 y2 x y
  | QuadTo x1 y1 x y => CallQuadraticCurveTo x1 y1 x y
  | ClosePath => CallClosePath
  end.

(** The calls the fill and stroke settings ask for after the outline. *)
Definition paint_calls (this : Path) : list Call :=
  (if truthy (fill this)
   then [SetFillStyle (or_default (fill this) EmptyString); Fill]
   else [])
  ++
  (if truthy (stroke this)
   then [SetStrokeStyle (or_default (stroke this) EmptyString);
         SetLineWidth (strokeWidth this); Stroke]
   else []).

(** [floatToString] of [toPathData]; [decimalPlaces] is the variable of
    the enclosing call.  [===] on two numbers is IEEE equality, and
    ['' + n] is the number-to-string conversion. *)
Definition floatToString (decimalPlaces : Z) (v : float) : completion string :=
  if (Math_round v =? v)%float
  then Normal (EmptyString +++ Number_toString (Math_round v))
  else Number_toFixed v decimalPlaces.

(** The loop of [packValues], from index [i] with [s] built so far. *)
Fixpoint packValues_from (decimalPlaces : Z) (i : nat) (s : string)
  (arguments : list float) : completion string :=
  match arguments with
  | [] => Normal s
  | v :: rest =>
      let s := if (0 <=? v)%float && (0 <? i)%nat then s +++ " " else s in
      str <- floatToString decimalPlaces v ;;
      packValues_from decimalPlaces (S i) (s +++ str) rest
  end.

(** [packValues] of [toPathData], on its [arguments]. *)
Definition packValues (decimalPlaces : Z) (arguments : list float)
  : completion string :=
  packValues_from decimalPlaces 0 EmptyString arguments.

(** One iteration of the loop of [toPathData]: [d += ...]. *)
Definition toPathData_step (decimalPlaces : Z) (d : string) (cmd : Command)
  : completion string :=
  if Cmd.has_type cmd "M" then
    s <- packValues decimalPlaces [Cmd.x cmd; Cmd.y cmd] ;;
    Normal (d +++ "M" +++ s)
  else if Cmd.has_type cmd "L" then
    s <- packValues decimalPlaces [Cmd.x cmd; Cmd.y cmd] ;;
    Normal (d +++ "L" +++ s)
  else if Cmd.has_type cmd "C" then
    s <- packValues decimalPlaces
           [Cmd.x1 cmd; Cmd.y1 cmd; Cmd.x2 cmd; Cmd.y2 cmd; Cmd.x cmd; Cmd.y cmd] ;;
    Normal (d +++ "C" +++ s)
  else if Cmd.has_type cmd "Q" then
    s <- packValues decimalPlaces
           [Cmd.x1 cmd; Cmd.y1 cmd; Cmd.x cmd; Cmd.y cmd] ;;
    Normal (d +++ "Q" +++ s)
  else if Cmd.has_type cmd "Z" then
    Normal (d +++ "Z")
  else Normal d.

Fixpoint toPathData_loop (decimalPlaces : Z) (d : string)
  (commands : list Command) : completion string :=
  match commands with
  | [] => Normal d
  | cmd :: rest =>
      d <- toPathData_step decimalPlaces d cmd ;;
      toPathData_loop decimalPlaces d rest
  end.

(** [Path.prototype.toPathData]; [decimalPlaces] is an integer count or
    [undefined]. *)
Definition toPathData (this : Path) (decimalPlaces : option Z)
  : completion string :=
  let decimalPlaces := or_default decimalPlaces 2%Z in
  toPathData_loop decimalPlaces EmptyString (commands this).

(** The condition [this.fill & this.fill !== 'black'] of [toSVG].  [!==]
    binds tighter than [&], so this is the bitwise and of [this.fill] and
    of the comparison, each converted to a 32-bit integer: [null] is 0, a
    string is [ToInt32] of the number it reads as, [true] is 1. *)
Definition fill_condition (StringToNumber : string -> float)
  (fill : option string) : Z :=
  let lnum :=
    match fill with
    | None => 0%Z
    | Some s => ToInt32 (StringToNumber s)
    end in
  let rnum :=
    match fill with
    | None => 1%Z
    | Some s => if String.eqb s "black" then 0%Z else 1%Z
    end in
  Z.land lnum rnum.

(** [Path.prototype.toSVG].  [StringToNumber] is ECMAScript's reading of
    a string as a number, which [&] applies to a string operand; the model
    takes it as a parameter. *)
Definition toSVG (StringToNumber : string -> float) (this : Path)
  (decimalPlaces : option Z) : completion string :=
  let svg := "<path d=" +++ dquote in
  d <- toPathData this decimalPlaces ;;
  let svg := svg +++ d in
  let svg := svg +++ dquote in
  let svg :=
    if truthy_int (fill_condition StringToNumber (fill this)) then
      match fill this with
      | None => svg +++ " fill=" +++ dquote +++ "none" +++ dquote
      | Some color => svg +++ " fill=" +++ dquote +++ color +++ dquote
      end
    else svg in
  let svg :=
    match stroke this with
    | Some color =>
        if truthy_string color then
          svg +++ " stroke=" +++ dquote +++ color +++ dquote +++
          " stroke-width=" +++ dquote +++ Number_toString (strokeWidth this)
          +++ dquote
        else svg
    | None => svg
    end in
  Normal (svg +++ "/>").

End Path.

(** ** The check module *)

Module check.

(** Modelled from the spec: [check.argument] of [./check], which is not
    among the sources.  The spec requires the leftover-points condition of
    [getContours] to raise a fatal failure carrying a description: a false
    predicate throws an [Error] with the given message, a true one returns. *)
Definition argument (predicate : bool) (message : string) : completion unit :=
  if predicate then Normal tt else Throw (Error message).

End check.

(** ** The Glyph object *)

Module Glyph.

(** The part of the font a glyph reads. *)
Record Font : Type := mkFont { unitsPerEm : float }.

(** A point of a TrueType outline, as the [glyf] parser stores it in
    [glyph.points]. *)
Record Point : Type := mkPoint {
  px : float;
  py : float;
  onCurve : bool;
  lastPointOfContour : bool
}.

(** The [options] argument of the constructor; [None] is a property the
    caller left out ([undefined]). *)
Record Options : Type := mkOptions {
  o_font : option Font;
  o_index : option Z;
  o_name : option string;
  o_unicode : option Z;
  o_unicodes : option (list (option Z));
  o_xMin : option float;
  o_yMin : option float;
  o_xMax : option float;
  o_yMax : option float;
  o_advanceWidth : option float;
  o_path : option Path.Path
}.

(** [font], [name] and [path] may be [null]; [unicode] may be
    [undefined], and so may the elements of [unicodes].  [points] is not
    set by the constructor: the TrueType parser adds it. *)
Record Glyph : Type := mkGlyph {
  font : option Font;
  index : Z;
  name : option string;
  unicode : option Z;
  unicodes : list (option Z);
  xMin : float;
  yMin : float;
  xMax : float;
  yMax : float;
  advanceWidth : float;
  path : option Path.Path;
  points : option (list Point)
}.

(** [v || 0] on an optional number. *)
Definition number_or_zero (v : option float) : float :=
  match v with
  | Some f => if truthy_number f then f else 0%float
  | None => 0%float
  end.

(** [function Glyph(options)].  In the initialiser of [unicodes] the
    conditional operator binds weaker than [||], so the condition is
    [options.unicodes || options.unicode !== undefined]; an array is
    always truthy. *)
Definition new (options : Options) : Glyph :=
  {| font := o_font options;
     index := match o_index options with
              | Some i => if truthy_int i then i else 0%Z
              | None => 0%Z
              end;
     name := match o_name options with
             | Some s => if truthy_string s then Some s else None
             | None => None
             end;
     unicode := match o_unicode options with
                | Some u => if truthy_int u then Some u else None
                | None => None
                end;
     unicodes :=
       if (match o_unicodes options with Some _ => true | None => false end
           || match o_unicode options with Some _ => true | None => false end)
       then [o_unicode options]
       else [];
     xMin := number_or_zero (o_xMin options);
     yMin := number_or_zero (o_yMin options);
     xMax := number_or_zero (o_xMax options);
     yMax := number_or_zero (o_yMax options);
     advanceWidth := number_or_zero (o_advanceWidth options);
     path := o_path options;
     points := None |}.

(** [Glyph.prototype.addUnicode]; [this.unicodes.push] keeps [font],
    [path] and the metrics. *)
Definition addUnicode (this : Glyph) (u : option Z) : Glyph :=
  {| font := font this;
     index := index this;
     name := name this;
     unicode := match unicodes this with
                | [] => u
                | _ :: _ => unicode this
                end;
     unicodes := unicodes this ++ [u];
     xMin := xMin this; yMin := yMin this;
     xMax := xMax this; yMax := yMax this;
     advanceWidth := advanceWidth this;
     path := path this;
     points := points this |}.

(** One iteration of the loop of [getPath]. *)
Definition getPath_step (x y scale : float) (p : Path.Path) (cmd : Command)
  : Path.Path :=
  if Cmd.has_type cmd "M" then
    Path.moveTo p (x + (Cmd.x cmd * scale)) (y + (- Cmd.y cmd * scale))
  else if Cmd.has_type cmd "L" then
    Path.lineTo p (x + (Cmd.x cmd * scale)) (y + (- Cmd.y cmd * scale))
  else if Cmd.has_type cmd "Q" then
    Path.quadraticCurveTo p
      (x + (Cmd.x1 cmd * scale)) (y + (- Cmd.y1 cmd * scale))
      (x + (Cmd.x cmd * scale)) (y + (- Cmd.y cmd * scale))
  else if Cmd.has_type cmd "C" then
    Path.curveTo p
      (x + (Cmd.x1 cmd * scale)) (y + (- Cmd.y1 cmd * scale))
      (x + (Cmd.x2 cmd * scale)) (y + (- Cmd.y2 cmd * scale))
      (x + (Cmd.x cmd * scale)) (y + (- Cmd.y cmd * scale))
  else if Cmd.has_type cmd "Z" then
    Path.closePath p
  else p.

(** [Glyph.prototype.getPath].  [this.font.unitsPerEm] and
    [this.path.commands] throw when [font] or [path] is [null]. *)
Definition getPath (this : Glyph) (x y fontSize : option float)
  : completion Path.Path :=
  let x := or_default x 0%float in
  let y := or_default y 0%float in
  let fontSize := or_default fontSize 72%float in
  font <- deref (font this) "Cannot read properties of null (reading 'unitsPerEm')" ;;
  let scale := (1 / unitsPerEm font * fontSize)%float in
  let p := Path.new in
  path <- deref (path this) "Cannot read properties of null (reading 'commands')" ;;
  let commands := Path.commands path in
  Normal (fold_left (getPath_step x y scale) commands p).

(** One iteration of the loop of [getContours], on the pair of
    [contours] and [currentContour]. *)
Definition getContours_step (st : list (list Point) * list Point) (pt : Point)
  : list (list Point) * list Point :=
  let '(contours, currentContour) := st in
  let currentContour := currentContour ++ [pt] in
  if lastPointOfContour pt
  then (contours ++ [currentContour], [])
  else (contours, currentContour).

Definition leftover_message : string :=
  "There are still points left in the current contour.".

(** [Glyph.prototype.getContours] *)
Definition getContours (this : Glyph) : completion (list (list Point)) :=
  match points this with
  | None => Normal []
  | Some points =>
      let '(contours, currentContour) :=
        fold_left getContours_step points ([], []) in
      _ <- check.argument (Nat.eqb (List.length currentContour) 0) leftover_message ;;
      Normal contours
  end.

(** The object [getMetrics] returns. *)
Module Metrics.
Record Metrics : Type := mkMetrics {
  xMin : float;
  yMin : float;
  xMax : float;
  yMax : float;
  leftSideBearing : float;
  rightSideBearing : float
}.
End Metrics.

(** One iteration of the loop of [getMetrics], on the pair of [xCoords]
    and [yCoords]: three independent tests on [cmd.type]. *)
Definition getMetrics_step (st : list float * list float) (cmd : Command)
  : list float * list float :=
  let '(xCoords, yCoords) := st in
  let '(xCoords, yCoords) :=
    if negb (Cmd.has_type cmd "Z")
    then (xCoords ++ [Cmd.x cmd], yCoords ++ [Cmd.y cmd])
    else (xCoords, yCoords) in
  let '(xCoords, yCoords) :=
    if Cmd.has_type cmd "Q" || Cmd.has_type cmd "C"
    then (xCoords ++ [Cmd.x1 cmd], yCoords ++ [Cmd.y1 cmd])
    else (xCoords, yCoords) in
  if Cmd.has_type cmd "C"
  then (xCoords ++ [Cmd.x2 cmd], yCoords ++ [Cmd.y2 cmd])
  else (xCoords, yCoords).

(** [Glyph.prototype.getMetrics] *)
Definition getMetrics (this : Glyph) : completion Metrics.Metrics :=
  path <- deref (path this) "Cannot read properties of null (reading 'commands')" ;;
  let commands := Path.commands path in
  let '(xCoords, yCoords) := fold_left getMetrics_step commands ([], []) in
  let xMin := Math_min xCoords in
  let yMin := Math_min yCoords in
  let xMax := Math_max xCoords in
  let yMax := Math_max yCoords in
  let leftSideBearing := 0%float in
  Normal {| Metrics.xMin := xMin;
            Metrics.yMin := yMin;
            Metrics.xMax := xMax;
            Metrics.yMax := yMax;
            Metrics.leftSideBearing := leftSideBearing;
            Metrics.rightSideBearing :=
              (advanceWidth this - leftSideBearing - (xMax - xMin))%float |}.

(** [Glyph.prototype.draw]: [this.getPath(x, y, fontSize).draw(ctx)] *)
Definition draw {S : Type} `{Path.Context2D S} (this : Glyph) (ctx : S)
  (x y fontSize : option float) : completion S :=
  p <- getPath this x y fontSize ;;
  Normal (Path.draw p ctx).

(** [ctx.arc], which [drawPoints] calls besides the path methods. *)
Class ArcContext (S : Type) : Type := {
  ctx_arc : float -> float -> float -> float -> float -> bool -> S -> S
}.

(** [Math.PI] *)
Definition Math_PI : float := 0x1.921fb54442d18p+1%float.

(** The loop of [drawCircles] of [drawPoints], over the points [l]. *)
Definition drawCircles_step {S : Type} `{Path.Context2D S} `{ArcContext S}
  (x y scale PI_SQ : float) (ctx : S) (pt : float * float) : S :=
  let ctx :=
    Path.ctx_moveTo (x + (fst pt * scale))%float (y + (snd pt * scale))%float
      ctx in
  ctx_arc (x + (fst pt * scale))%float (y + (snd pt * scale))%float
    2%float 0%float PI_SQ false ctx.

(** [drawCircles] of [drawPoints] *)
Definition drawCircles {S : Type} `{Path.Context2D S} `{ArcContext S}
  (ctx : S) (l : list (float * float)) (x y scale : float) : S :=
  let PI_SQ := (Math_PI * 2)%float in
  let ctx := Path.ctx_beginPath ctx in
  let ctx := fold_left (drawCircles_step x y scale PI_SQ) l ctx in
  let ctx := Path.ctx_closePath ctx in
  Path.ctx_fill ctx.

(** One iteration of the loop of [drawPoints] over the commands, on the
    pair of [blueCircles] and [redCircles]. *)
Definition drawPoints_step
  (st : list (float * float) * list (float * float)) (cmd : Command)
  : list (float * float) * list (float * float) :=
  let '(blueCircles, redCircles) := st in
  let blueCircles :=
    if Cmd.has_x cmd
    then blueCircles ++ [(Cmd.x cmd, (- Cmd.y cmd)%float)]
    else blueCircles in
  let redCircles :=
    if Cmd.has_x1 cmd
    then redCircles ++ [(Cmd.x1 cmd, (- Cmd.y1 cmd)%float)]
    else redCircles in
  let redCircles :=
    if Cmd.has_x2 cmd
    then redCircles ++ [(Cmd.x2 cmd, (- Cmd.y2 cmd)%float)]
    else redCircles in
  (blueCircles, redCircles).

(** [Glyph.prototype.drawPoints]; the size is 24 when left out. *)
Definition drawPoints {S : Type} `{Path.Context2D S} `{ArcContext S}
  (this : Glyph) (ctx : S) (x y fontSize : option float) : completion S :=
  let x := or_default x 0%float in
  let y := or_default y 0%float in
  let fontSize := or_default fontSize 24%float in
  font <- deref (font this) "Cannot read properties of null (reading 'unitsPerEm')" ;;
  let scale := (1 / unitsPerEm font * fontSize)%float in
  path <- deref (path this) "Cannot read properties of null (reading 'commands')" ;;
  let '(blueCircles, redCircles) :=
    fold_left drawPoints_step (Path.commands path) ([], []) in
  let ctx := Path.ctx_set_fillStyle "blue" ctx in
  let ctx := drawCircles ctx blueCircles x y scale in
  let ctx := Path.ctx_set_fillStyle "red" ctx in
  Normal (drawCircles ctx redCircles x y scale).

End Glyph.

(** ** Observing a canvas context *)

Module Canvas.

(** The calls a context can receive from [drawPoints], as data. *)
Inductive CanvasCall : Type :=
| PathCall (call : Path.Call)
| Arc (x y radius startAngle endAngle : float) (anticlockwise : bool).

(** Any sink of [drawPoints], observed. *)
#[export] Instance ObservedPath (S : Type) `{Path.Context2D S}
  : Path.Context2D (S * list CanvasCall) := {
  Path.ctx_beginPath '(s, log) :=
    (Path.ctx_beginPath s, log ++ [PathCall Path.BeginPath]);
  Path.ctx_moveTo x y '(s, log) :=
    (Path.ctx_moveTo x y s, log ++ [PathCall (Path.CallMoveTo x y)]);
  Path.ctx_lineTo x y '(s, log) :=
    (Path.ctx_lineTo x y s, log ++ [PathCall (Path.CallLineTo x y)]);
  Path.ctx_bezierCurveTo x1 y1 x2 y2 x y '(s, log) :=
    (Path.ctx_bezierCurveTo x1 y1 x2 y2 x y s,
     log ++ [PathCall (Path.CallBezierCurveTo x1 y1 x2 y2 x y)]);
  Path.ctx_quadraticCurveTo x1 y1 x y '(s, log) :=
    (Path.ctx_quadraticCurveTo x1 y1 x y s,
     log ++ [PathCall (Path.CallQuadraticCurveTo x1 y1 x y)]);
  Path.ctx_closePath '(s, log) :=
    (Path.ctx_closePath s, log ++ [PathCall Path.CallClosePath]);
  Path.ctx_set_fillStyle c '(s, log) :=
    (Path.ctx_set_fillStyle c s, log ++ [PathCall (Path.SetFillStyle c)]);
  Path.ctx_fill '(s, log) := (Path.ctx_fill s, log ++ [PathCall Path.Fill]);
  Path.ctx_set_strokeStyle c '(s, log) :=
    (Path.ctx_set_strokeStyle c s, log ++ [PathCall (Path.SetStrokeStyle c)]);
  Path.ctx_set_lineWidth w '(s, log) :=
    (Path.ctx_set_lineWidth w s, log ++ [PathCall (Path.SetLineWidth w)]);
  Path.ctx_stroke '(s, log) := (Path.ctx_stroke s, log ++ [PathCall Path.Stroke])
}.

#[export] Instance ObservedArc (S : Type) `{Glyph.ArcContext S}
  : Glyph.ArcContext (S * list CanvasCall) := {
  Glyph.ctx_arc x y radius startAngle endAngle anticlockwise '(s, log) :=
    (Glyph.ctx_arc x y radius startAngle endAngle anticlockwise s,
     log ++ [Arc x y radius startAngle endAngle anticlockwise])
}.

End Canvas.


(** ** The properties, in the words of the specification *)

Module Spec.

(** Where [getPath] puts the outline point [(px, py)]: scaled, flipped
    vertically and moved to the origin [(x, y)]. *)
Definition place (x y scale : float) (pt : float * float) : float * float :=
  let '(px, py) := pt in
  ((x + px * scale)%float, (y - py * scale)%float).

(** A command of the same type with every coordinate pair sent through
    [f]: the control points and the endpoint alike. *)
Definition map_points (f : float * float -> float * float) (cmd : Command)
  : Command :=
  match cmd with
  | MoveTo x y => let '(x', y') := f (x, y) in MoveTo x' y'
  | LineTo x y => let '(x', y') := f (x, y) in LineTo x' y'
  | CurveTo x1 y1 x2 y2 x y =>
      let '(x1', y1') := f (x1, y1) in
      let '(x2', y2') := f (x2, y2) in
      let '(x', y') := f (x, y) in
      CurveTo x1' y1' x2' y2' x' y'
  | QuadTo x1 y1 x y =>
      let '(x1', y1') := f (x1, y1) in
      let '(x', y') := f (x, y) in
      QuadTo x1' y1' x' y'
  | ClosePath => ClosePath
  end.

(** The coordinate pairs [getMetrics] collects from one command: the
    endpoint of every command but Close, then the first control point of
    Quad and Cubic, then the second control point of Cubic. *)
Definition collected (cmd : Command) : list (float * float) :=
  match cmd with
  | MoveTo x y => [(x, y)]
  | LineTo x y => [(x, y)]
  | QuadTo x1 y1 x y => [(x, y); (x1, y1)]
  | CurveTo x1 y1 x2 y2 x y => [(x, y); (x1, y1); (x2, y2)]
  | ClosePath => []
  end.

Definition collected_x (commands : list Command) : list float :=
  map fst (flat_map collected commands).

Definition collected_y (commands : list Command) : list float :=
  map snd (flat_map collected commands).

(** The number of points flagged as the last of their contour. *)
Definition flagged (points : list Glyph.Point) : nat :=
  List.length (filter Glyph.lastPointOfContour points).

(** The point list is empty or its final point is flagged. *)
Definition ends_flagged (points : list Glyph.Point) : bool :=
  match rev points with
  | [] => true
  | pt :: _ => Glyph.lastPointOfContour pt
  end.

(** The calls [draw] makes for a path: the outline, one call per command,
    then the paint. *)
Definition calls (this : Path.Path) : list Path.Call :=
  Path.BeginPath :: map Path.call_of (Path.commands this) ++ Path.paint_calls this.

(** The coordinates [toPathData] prints for a command, in order. *)
Definition coordinates (cmd : Command) : list float :=
  match cmd with
  | MoveTo x y => [x; y]
  | LineTo x y => [x; y]
  | CurveTo x1 y1 x2 y2 x y => [x1; y1; x2; y2; x; y]
  | QuadTo x1 y1 x y => [x1; y1; x; y]
  | ClosePath => []
  end.

(** Running [f] over a list, stopping at the first throw. *)
Fixpoint traverse {A B : Type} (f : A -> completion B) (l : list A)
  : completion (list B) :=
  match l with
  | [] => Normal []
  | a :: rest =>
      b <- f a ;;
      bs <- traverse f rest ;;
      Normal (b :: bs)
  end.

(** What stands between the previous text and the value at index [i]. *)
Definition separator (i : nat) (v : float) : string :=
  if (0 <=? v)%float && negb (Nat.eqb i 0) then " " else EmptyString.

(** The coordinate text of one command: each value's text, in order,
    after its separator. *)
Fixpoint packed_from (i : nat) (values : list float) (texts : list string)
  : string :=
  match values, texts with
  | v :: values, text :: texts =>
      separator i v +++ text +++ packed_from (S i) values texts
  | _, _ => EmptyString
  end.

Definition packed (values : list float) (texts : list string) : string :=
  packed_from 0 values texts.

(** Texts put end to end. *)
Definition join (texts : list string) : string :=
  fold_right String.append EmptyString texts.

(** The text after the first point of [s], if [s] has a point. *)
Fixpoint fraction (s : string) : option string :=
  match s with
  | EmptyString => None
  | String c rest => if Ascii.eqb c "." then Some rest else fraction rest
  end.

Definition has_point (s : string) : bool :=
  match fraction s with
  | Some _ => true
  | None => false
  end.

Definition is_digit (c : ascii) : bool :=
  (48 <=? nat_of_ascii c)%nat && (nat_of_ascii c <=? 57)%nat.

Fixpoint all_digits (s : string) : bool :=
  match s with
  | EmptyString => true
  | String c rest => is_digit c && all_digits rest
  end.

(** [s] is a number printed with exactly [d] digits after the point, and
    without a point when [d] is 0. *)
Definition fixed_to (d : nat) (s : string) : bool :=
  match fraction s with
  | None => Nat.eqb d 0
  | Some digits =>
      negb (Nat.eqb d 0) && all_digits digits
      && Nat.eqb (String.length digits) d
  end.

(** The text [floatToString] returns, or the empty text when it throws. *)
Definition rendered (d : Z) (v : float) : string :=
  match Path.floatToString d v with
  | Normal text => text
  | Throw _ => EmptyString
  end.

(** The glyph's [unicode] is the first of its [unicodes], if it has any. *)
Definition unicode_is_first (g : Glyph.Glyph) : Prop :=
  match Glyph.unicodes g with
  | [] => True
  | u :: _ => Glyph.unicode g = u
  end.

(** A coordinate [floatToString] hands to [toFixed]: [NaN], or a finite
    number that is not whole. *)
Definition needs_toFixed (v : float) : bool :=
  match Prim2SF v with
  | S754_nan => true
  | S754_finite _ m e => negb (integral_mantissa m e)
  | _ => false
  end.

(** The [stroke] and [stroke-width] attributes of [toSVG]. *)
Definition stroke_attributes (this : Path.Path) : string :=
  match Path.stroke this with
  | Some color =>
      if truthy_string color then
        " stroke=" +++ dquote +++ color +++ dquote +++
        " stroke-width=" +++ dquote +++ Number_toString (Path.strokeWidth this)
        +++ dquote
      else EmptyString
  | None => EmptyString
  end.

(** A contour ends with its only flagged point. *)
Definition closed_contour (contour : list Glyph.Point) : Prop :=
  exists init last,
    contour = init ++ [last]
    /\ Glyph.lastPointOfContour last = true
    /\ forallb (fun pt => negb (Glyph.lastPointOfContour pt)) init = true.

(** The endpoint of a command, if it has one, and its control points. *)
Definition endpoints (cmd : Command) : list (float * float) :=
  match cmd with
  | MoveTo x y | LineTo x y | CurveTo _ _ _ _ x y | QuadTo _ _ x y => [(x, y)]
  | ClosePath => []
  end.

Definition control_points (cmd : Command) : list (float * float) :=
  match cmd with
  | CurveTo x1 y1 x2 y2 _ _ => [(x1, y1); (x2, y2)]
  | QuadTo x1 y1 _ _ => [(x1, y1)]
  | _ => []
  end.

(** The calls that mark one point: a full circle of radius 2 around it. *)
Definition mark (pt : float * float) : list Canvas.CanvasCall :=
  [Canvas.PathCall (Path.CallMoveTo (fst pt) (snd pt));
   Canvas.Arc (fst pt) (snd pt) 2 0 (Glyph.Math_PI * 2) false].

(** One pass of [drawPoints]: the marks of the points, filled in one
    colour. *)
Definition marks (color : string) (pts : list (float * float))
  : list Canvas.CanvasCall :=
  [Canvas.PathCall (Path.SetFillStyle color); Canvas.PathCall Path.BeginPath]
  ++ flat_map mark pts
  ++ [Canvas.PathCall Path.CallClosePath; Canvas.PathCall Path.Fill].

(** A point as [drawPoints] keeps it, with [y] negated, and where it is
    marked. *)
Definition flip (pt : float * float) : float * float :=
  (fst pt, (- snd pt)%float).

Definition marked_at (x y scale : float) (pt : float * float) : float * float :=
  ((x + fst pt * scale)%float, (y + snd pt * scale)%float).

(** The message of the [RangeError] of [toFixed]. *)
Definition out_of_range_message : string :=
  "toFixed() digits argument must be between 0 and 100".

(** The [fill] attribute of [toSVG], written when the bitwise condition
    is not 0. *)
Definition fill_attribute (StringToNumber : string -> float)
  (fill : option string) : string :=
  if truthy_int (Path.fill_condition StringToNumber fill) then
    " fill=" +++ dquote +++ or_default fill "none" +++ dquote
  else EmptyString.

(** A whole number that orders the doubles that are not [NaN] as their
    values do: the value in units of [2^-1074], and beyond every finite
    value for the infinities. *)
Definition rank (v : float) : Z :=
  match Prim2SF v with
  | S754_zero _ => 0
  | S754_infinity s => if s then - 2 ^ 2200 else 2 ^ 2200
  | S754_nan => 0
  | S754_finite s m e =>
      if s then - (Zpos m * 2 ^ (e + 1074)) else Zpos m * 2 ^ (e + 1074)
  end%Z.

(** A double that is not [NaN]. *)
Definition number (v : float) : Prop := is_nan v = false.

(** Reading a text of decimal digits as a whole number, and a text with
    a leading minus sign as its opposite. *)
Definition digit_value (c : ascii) : Z := (Z.of_nat (nat_of_ascii c) - 48)%Z.

Fixpoint read_from (acc : Z) (s : string) : Z :=
  match s with
  | EmptyString => acc
  | String c rest => read_from (10 * acc + digit_value c)%Z rest
  end.

Definition read_digits (s : string) : Z := read_from 0%Z s.

Definition read_integer (s : string) : Z :=
  match s with
  | String c rest =>
      if Ascii.eqb c "-" then (- read_digits rest)%Z else read_digits s
  | EmptyString => 0%Z
  end.

(** The value of a double that is a whole number. *)
Definition integer_value (v : float) : Z :=
  match Prim2SF v with
  | S754_finite s m e =>
      let magnitude :=
        if (0 <=? e)%Z then (Zpos m * 2 ^ e)%Z else (Zpos m / 2 ^ (- e))%Z in
      if s then (- magnitude)%Z else magnitude
  | _ => 0%Z
  end.



(** The reductions in the spec's words.  [r] is the minimum of [l]:
    [NaN] when a value of [l] is [NaN]; otherwise [+Infinity] when [l] is
    empty, and else a value of [l] that no value of [l] is below, [-0]
    rather than [+0] when [l] holds both. *)
Definition minimum_of (l : list float) (r : float) : Prop :=
  if existsb is_nan l then is_nan r = true
  else
    match l with
    | [] => r = infinity
    | _ :: _ =>
        In r l
        /\ (forall x, In x l -> (r <=? x)%float = true)
        /\ (forall x, In x l -> is_neg_zero x = true -> is_pos_zero r = false)
    end.

(** [r] is the maximum of [l]: [NaN] when a value of [l] is [NaN];
    otherwise [-Infinity] when [l] is empty, and else a value of [l] that
    no value of [l] is above, [+0] rather than [-0] when [l] holds both. *)
Definition maximum_of (l : list float) (r : float) : Prop :=
  if existsb is_nan l then is_nan r = true
  else
    match l with
    | [] => r = neg_infinity
    | _ :: _ =>
        In r l
        /\ (forall x, In x l -> (x <=? r)%float = true)
        /\ (forall x, In x l -> is_pos_zero x = true -> is_neg_zero r = false)
    end.

End Spec.

(** ** Examples of the specification *)

Module Examples.

(** A glyph of a font with 1000 units per em whose outline is the single
    point (500, 300). *)
Definition point_glyph : Glyph.Glyph :=
  Glyph.new
    {| Glyph.o_font := Some {| Glyph.unitsPerEm := 1000 |};
       Glyph.o_index := None; Glyph.o_name := None;
       Glyph.o_unicode := None; Glyph.o_unicodes := None;
       Glyph.o_xMin := None; Glyph.o_yMin := None;
       Glyph.o_xMax := None; Glyph.o_yMax := None;
       Glyph.o_advanceWidth := None;
       Glyph.o_path := Some (Path.moveTo Path.new 500 300) |}.

(** The square outline of the metrics example, advance width 12. *)
Definition square : Path.Path :=
  Path.close
    (Path.lineTo (Path.lineTo (Path.lineTo (Path.moveTo Path.new 0 0) 10 0) 10 10)
       0 10).

Definition square_glyph : Glyph.Glyph :=
  Glyph.new
    {| Glyph.o_font := None;
       Glyph.o_index := None; Glyph.o_name := None;
       Glyph.o_unicode := None; Glyph.o_unicodes := None;
       Glyph.o_xMin := None; Glyph.o_yMin := None;
       Glyph.o_xMax := None; Glyph.o_yMax := None;
       Glyph.o_advanceWidth := Some 12%float;
       Glyph.o_path := Some square |}.

(** A glyph whose outline has only Close commands. *)
Definition closed_glyph : Glyph.Glyph :=
  Glyph.new
    {| Glyph.o_font := None;
       Glyph.o_index := None; Glyph.o_name := None;
       Glyph.o_unicode := None; Glyph.o_unicodes := None;
       Glyph.o_xMin := None; Glyph.o_yMin := None;
       Glyph.o_xMax := None; Glyph.o_yMax := None;
       Glyph.o_advanceWidth := Some 12%float;
       Glyph.o_path := Some (Path.close (Path.close Path.new)) |}.

(** A glyph as the TrueType parser leaves it: [points] set on the
    constructed object. *)
Definition with_points (points : list Glyph.Point) : Glyph.Glyph :=
  {| Glyph.font := None; Glyph.index := 0; Glyph.name := None;
     Glyph.unicode := None; Glyph.unicodes := [];
     Glyph.xMin := 0; Glyph.yMin := 0; Glyph.xMax := 0; Glyph.yMax := 0;
     Glyph.advanceWidth := 0;
     Glyph.path := None;
     Glyph.points := Some points |}.

Definition pt (x y : float) (last : bool) : Glyph.Point :=
  {| Glyph.px := x; Glyph.py := y; Glyph.onCurve := true;
     Glyph.lastPointOfContour := last |}.

(** Two contours: a triangle and a segment. *)
Definition two_contours : list Glyph.Point :=
  [pt 0 0 false; pt 10 0 false; pt 0 10 true; pt 3 3 false; pt 4 4 true].

(** The same points with the final flag missing. *)
Definition unfinished : list Glyph.Point :=
  [pt 0 0 false; pt 10 0 false; pt 0 10 true; pt 3 3 false; pt 4 4 false].

(** A path with the given commands and the paint of a fresh [Path]. *)
Definition with_commands (commands : list Command) : Path.Path :=
  {| Path.commands := commands; Path.fill := Some "black";
     Path.stroke := None; Path.strokeWidth := 1 |}.

(** A path without commands nor stroke, with the given [fill]. *)
Definition with_fill (fill : option string) : Path.Path :=
  {| Path.commands := []; Path.fill := fill;
     Path.stroke := None; Path.strokeWidth := 1 |}.

(** A glyph of a font with 1000 units per em whose outline is one cubic
    curve. *)
Definition curve_glyph : Glyph.Glyph :=
  Glyph.new
    {| Glyph.o_font := Some {| Glyph.unitsPerEm := 1000 |};
       Glyph.o_index := None; Glyph.o_name := None;
       Glyph.o_unicode := None; Glyph.o_unicodes := None;
       Glyph.o_xMin := None; Glyph.o_yMin := None;
       Glyph.o_xMax := None; Glyph.o_yMax := None;
       Glyph.o_advanceWidth := None;
       Glyph.o_path := Some (Path.curveTo Path.new 1 2 3 4 5 6) |}.

(** A glyph whose outline has a [NaN] coordinate. *)
Definition broken_glyph : Glyph.Glyph :=
  Glyph.new
    {| Glyph.o_font := None;
       Glyph.o_index := None; Glyph.o_name := None;
       Glyph.o_unicode := None; Glyph.o_unicodes := None;
       Glyph.o_xMin := None; Glyph.o_yMin := None;
       Glyph.o_xMax := None; Glyph.o_yMax := None;
       Glyph.o_advanceWidth := Some 12%float;
       Glyph.o_path := Some (Path.lineTo (Path.moveTo Path.new 0 0) nan 1) |}.

(** An outline whose extreme coordinates are not those of its first
    point: M 3,4 L -1,7 L 8,-2, advance width 12. *)
Definition zigzag : Path.Path :=
  Path.lineTo (Path.lineTo (Path.moveTo Path.new 3 4) (-1) 7) 8 (-2).

Definition zigzag_glyph : Glyph.Glyph :=
  Glyph.new
    {| Glyph.o_font := None;
       Glyph.o_index := None; Glyph.o_name := None;
       Glyph.o_unicode := None; Glyph.o_unicodes := None;
       Glyph.o_xMin := None; Glyph.o_yMin := None;
       Glyph.o_xMax := None; Glyph.o_yMax := None;
       Glyph.o_advanceWidth := Some 12%float;
       Glyph.o_path := Some zigzag |}.

(** A sink without state, whose methods do nothing. *)
#[local] Instance null_sink : Path.Context2D unit := {
  Path.ctx_beginPath s := s;
  Path.ctx_moveTo _ _ s := s;
  Path.ctx_lineTo _ _ s := s;
  Path.ctx_bezierCurveTo _ _ _ _ _ _ s := s;
  Path.ctx_quadraticCurveTo _ _ _ _ s := s;
  Path.ctx_closePath s := s;
  Path.ctx_set_fillStyle _ s := s;
  Path.ctx_fill s := s;
  Path.ctx_set_strokeStyle _ s := s;
  Path.ctx_set_lineWidth _ s := s;
  Path.ctx_stroke s := s
}.

#[local] Instance null_arc_sink : Glyph.ArcContext unit := {
  Glyph.ctx_arc _ _ _ _ _ _ s := s
}.

End Examples.

(** * Theorems *)

(** ** Lists built by pushing *)

Lemma fold_left_push {A B : Type} (f : A -> list B) (l : list A) (acc : list B) :
  fold_left (fun acc a => acc ++ f a) l acc = acc ++ flat_map f l.
Proof.
  revert acc. induction l as [|a l IH]; intros acc; simpl.
  - now rewrite app_nil_r.
  - rewrite IH. now rewrite app_assoc.
Qed.

Lemma float_neq (a b : float) : PrimFloat.eqb a b = false -> is_nan a = false -> a <> b.
Proof.
  intros Hab Ha ->. unfold is_nan in Ha.
  rewrite Hab in Ha. discriminate.
Qed.

(** ** Double-precision arithmetic *)

Module FloatFacts.

Lemma binary_round_aux_opp (prec emax : Z) (s : bool) (m e : Z) (l : location) :
  binary_round_aux prec emax (negb s) m e l
  = SFopp (binary_round_aux prec emax s m e l).
Proof.
  unfold binary_round_aux.
  destruct (shr_fexp prec emax m e l) as [mrs' e'].
  destruct (shr_fexp prec emax _ e' loc_Exact) as [mrs'' e''].
  destruct (shr_m mrs''); try reflexivity.
  destruct (Z.leb e'' (Z.sub emax prec)); reflexivity.
Qed.

Lemma SFmul_opp_l (prec emax : Z) (a b : spec_float) :
  SFmul prec emax (SFopp a) b = SFopp (SFmul prec emax a b).
Proof.
  destruct a as [sa|sa| |sa ma ea], b as [sb|sb| |sb mb eb]; simpl;
    try reflexivity; try (destruct sa, sb; reflexivity).
  rewrite <- binary_round_aux_opp. now destruct sa, sb.
Qed.

Lemma SFadd_opp_r (prec emax : Z) (a b : spec_float) :
  SFadd prec emax a (SFopp b) = SFsub prec emax a b.
Proof.
  destruct a as [sa|sa| |sa ma ea], b as [sb|sb| |sb mb eb]; simpl;
    try reflexivity; try (destruct sa, sb; reflexivity).
Qed.

(** Adding the product with the negated factor is subtracting the
    product: negation is exact and rounding is symmetric. *)
Lemma add_opp_mul (y p s : float) : (y + (- p) * s = y - p * s)%float.
Proof.
  apply Prim2SF_inj.
  rewrite add_spec, sub_spec, !mul_spec, opp_spec.
  unfold SF64add, SF64sub, SF64mul.
  now rewrite SFmul_opp_l, SFadd_opp_r.
Qed.

End FloatFacts.

(** ** getPath *)

Module GetPath.

Lemma step_push (x y scale : float) (p : Path.Path) (cmd : Command) :
  Glyph.getPath_step x y scale p cmd
  = Path.push p (Spec.map_points (Spec.place x y scale) cmd).
Proof.
  destruct cmd; cbn -[PrimFloat.add PrimFloat.mul PrimFloat.sub PrimFloat.opp];
    rewrite ?FloatFacts.add_opp_mul; reflexivity.
Qed.

Lemma loop_commands (x y scale : float) (cmds : list Command) (p : Path.Path) :
  fold_left (Glyph.getPath_step x y scale) cmds p
  = {| Path.commands :=
         Path.commands p ++ map (Spec.map_points (Spec.place x y scale)) cmds;
       Path.fill := Path.fill p;
       Path.stroke := Path.stroke p;
       Path.strokeWidth := Path.strokeWidth p |}.
Proof.
  revert p. induction cmds as [|cmd cmds IH]; intros p; simpl.
  - rewrite app_nil_r. now destruct p.
  - rewrite IH, step_push. simpl. now rewrite <- app_assoc.
Qed.

Lemma getPath_commands
  (g : Glyph.Glyph) (font : Glyph.Font) (stored : Path.Path)
  (x y fontSize : option float) :
  Glyph.font g = Some font ->
  Glyph.path g = Some stored ->
  exists p : Path.Path,
    Glyph.getPath g x y fontSize = Normal p
    /\ Path.commands p
       = map (Spec.map_points
                (Spec.place (or_default x 0%float) (or_default y 0%float)
                   (1 / Glyph.unitsPerEm font * or_default fontSize 72)%float))
           (Path.commands stored).
Proof.
  intros Hfont Hpath. unfold Glyph.getPath. rewrite Hfont, Hpath.
  cbn [deref bind]. eexists. split; [reflexivity|].
  now rewrite loop_commands.
Qed.

(** The x of the endpoint of the first command. *)
Definition first_x (commands : list Command) : float :=
  match commands with
  | cmd :: _ => Cmd.x cmd
  | [] => nan
  end.

Lemma map_points_type (f : float * float -> float * float) (cmd : Command) :
  Cmd.type (Spec.map_points f cmd) = Cmd.type cmd.
Proof.
  destruct cmd; simpl; repeat (destruct (f _)); reflexivity.
Qed.

(** C1, as the code has it.  For a glyph with a font and a stored path,
    [getPath(x, y, fontSize)] (defaults 0, 0, 72) returns a new path, with
    the fill and stroke of a fresh [Path], that has as many commands as the
    stored one; its i-th command has the type of the i-th stored command
    and every coordinate pair [(px, py)] of it, control points and endpoint
    alike, is [(x + px * scale, y - py * scale)], in double precision,
    where [scale = 1 / unitsPerEm * fontSize]. *)
Theorem getPath_places_every_point
  (g : Glyph.Glyph) (font : Glyph.Font) (stored : Path.Path)
  (x y fontSize : option float) :
  Glyph.font g = Some font ->
  Glyph.path g = Some stored ->
  let ox := or_default x 0%float in
  let oy := or_default y 0%float in
  let scale := (1 / Glyph.unitsPerEm font * or_default fontSize 72)%float in
  exists p : Path.Path,
    Glyph.getPath g x y fontSize = Normal p
    /\ List.length (Path.commands p) = List.length (Path.commands stored)
    /\ (forall i cmd,
          nth_error (Path.commands stored) i = Some cmd ->
          nth_error (Path.commands p) i
          = Some (Spec.map_points (Spec.place ox oy scale) cmd)
          /\ Cmd.type (Spec.map_points (Spec.place ox oy scale) cmd)
             = Cmd.type cmd)
    /\ Path.fill p = Some "black"
    /\ Path.stroke p = None
    /\ Path.strokeWidth p = 1%float.
Proof.
  intros Hfont Hpath ox oy scale.
  unfold Glyph.getPath. rewrite Hfont, Hpath. simpl.
  eexists. split; [reflexivity|].
  rewrite loop_commands. simpl.
  repeat split.
  - now rewrite length_map.
  - rewrite nth_error_map, H. reflexivity.
  - apply map_points_type.
Qed.

(** With 1000 units per em and the default size 72, the stored point
    (500, 300) goes to (36.00000000000001, -21.6) at the origin. *)
Lemma getPath_places_every_point_witness :
  exists p : Path.Path,
    Glyph.getPath Examples.point_glyph None None None = Normal p
    /\ Path.commands p = [MoveTo 0x1.2000000000001p+5 (-21.6)].
Proof.
  destruct (getPath_places_every_point Examples.point_glyph
              {| Glyph.unitsPerEm := 1000 |} (Path.moveTo Path.new 500 300)
              None None None eq_refl eq_refl)
    as (p & Hp & Hlen & Hnth & _).
  exists p. split; [exact Hp|].
  destruct (Hnth 0%nat (MoveTo 500 300) eq_refl) as [H0 _].
  destruct (Path.commands p) as [|cmd [|? ?]]; try discriminate Hlen.
  assert (E := f_equal (fun o => or_default o cmd) H0).
  simpl in E. rewrite E. reflexivity.
Defined.

(** The claim's own numbers fail: the scale is [1 / 1000 * 72], which is
    0.07200000000000001 and not [72 / 1000]; the point (500, 300) goes to
    x = 36.00000000000001, not to the 36.0 that [x + px * (fontSize / n)]
    gives. *)
Lemma getPath_scale_is_not_a_quotient :
  exists p : Path.Path,
    Glyph.getPath Examples.point_glyph None None None = Normal p
    /\ Path.commands p <> [MoveTo 36 (-21.6)]
    /\ Path.commands p
       <> [MoveTo (0 + 500 * (72 / 1000)) (0 - 300 * (72 / 1000))]
    /\ (1 / 1000 * 72 <> 72 / 1000)%float.
Proof.
  eexists. split; [vm_compute; reflexivity|].
  assert (H : (0x1.2000000000001p+5 <> 36)%float)
    by (apply float_neq; reflexivity).
  repeat split.
  - intro E. apply H. exact (f_equal first_x E).
  - intro E. apply H. exact (f_equal first_x E).
  - apply float_neq; reflexivity.
Qed.

End GetPath.

(** ** getMetrics *)

Module GetMetrics.

Lemma step_collects (xs ys : list float) (cmd : Command) :
  Glyph.getMetrics_step (xs, ys) cmd
  = (xs ++ map fst (Spec.collected cmd), ys ++ map snd (Spec.collected cmd)).
Proof.
  destruct cmd; cbn; rewrite <- ?app_assoc, ?app_nil_r; reflexivity.
Qed.

Lemma loop_collects (cmds : list Command) (xs ys : list float) :
  fold_left Glyph.getMetrics_step cmds (xs, ys)
  = (xs ++ Spec.collected_x cmds, ys ++ Spec.collected_y cmds).
Proof.
  unfold Spec.collected_x, Spec.collected_y.
  revert xs ys.
  induction cmds as [|cmd cmds IH]; intros xs ys; cbn [fold_left flat_map map].
  - now rewrite !app_nil_r.
  - rewrite step_collects, IH, !map_app, !app_assoc. reflexivity.
Qed.

Lemma collected_only_close (cmds : list Command) :
  (forall cmd, In cmd cmds -> Cmd.type cmd = "Z") ->
  flat_map Spec.collected cmds = [].
Proof.
  induction cmds as [|cmd cmds IH]; intros H; [reflexivity|].
  simpl. rewrite IH by (intros c Hc; apply H; now right).
  specialize (H cmd (or_introl eq_refl)).
  destruct cmd; try discriminate H. reflexivity.
Qed.

(** C9, as the code has it.  For a glyph whose stored path has no
    command other than Close (none at all, for one), [getMetrics] raises
    nothing and returns the reductions of no argument: [xMin] and [yMin]
    are [+Infinity], [xMax] and [yMax] are [-Infinity], none of them [NaN],
    [leftSideBearing] is 0 and [rightSideBearing] is
    [advanceWidth - 0 - (-Infinity - Infinity)]. *)
Theorem getMetrics_of_no_coordinate (g : Glyph.Glyph) (stored : Path.Path) :
  Glyph.path g = Some stored ->
  (forall cmd, In cmd (Path.commands stored) -> Cmd.type cmd = "Z") ->
  Glyph.getMetrics g
  = Normal {| Glyph.Metrics.xMin := infinity;
              Glyph.Metrics.yMin := infinity;
              Glyph.Metrics.xMax := neg_infinity;
              Glyph.Metrics.yMax := neg_infinity;
              Glyph.Metrics.leftSideBearing := 0;
              Glyph.Metrics.rightSideBearing :=
                (Glyph.advanceWidth g - 0 - (neg_infinity - infinity))%float |}
  /\ is_nan infinity = false /\ is_nan neg_infinity = false.
Proof.
  intros Hpath Hclose.
  unfold Glyph.getMetrics. rewrite Hpath. cbn [deref bind].
  rewrite loop_collects. unfold Spec.collected_x, Spec.collected_y.
  rewrite (collected_only_close _ Hclose). repeat split.
Qed.

(** Two Close commands, advance width 12: the box is infinite and the
    right side bearing is [+Infinity]. *)
Lemma getMetrics_of_no_coordinate_witness :
  Glyph.getMetrics Examples.closed_glyph
  = Normal {| Glyph.Metrics.xMin := infinity;
              Glyph.Metrics.yMin := infinity;
              Glyph.Metrics.xMax := neg_infinity;
              Glyph.Metrics.yMax := neg_infinity;
              Glyph.Metrics.leftSideBearing := 0;
              Glyph.Metrics.rightSideBearing := infinity |}.
Proof.
  refine (proj1 (getMetrics_of_no_coordinate Examples.closed_glyph
                   (Path.close (Path.close Path.new)) eq_refl _)).
  intros cmd [<-|[<-|[]]]; reflexivity.
Defined.

(** The box of an outline without coordinates is not [NaN]: [xMin] is
    [+Infinity] and [xMax] is [-Infinity], which are numbers, and ordered
    comparisons with them hold. *)
Lemma getMetrics_empty_box_is_infinite :
  exists m : Glyph.Metrics.Metrics,
    Glyph.getMetrics Examples.closed_glyph = Normal m
    /\ is_nan (Glyph.Metrics.xMin m) = false
    /\ is_nan (Glyph.Metrics.yMin m) = false
    /\ is_nan (Glyph.Metrics.xMax m) = false
    /\ is_nan (Glyph.Metrics.yMax m) = false
    /\ Glyph.Metrics.xMin m = infinity
    /\ Glyph.Metrics.xMax m = neg_infinity
    /\ (Glyph.Metrics.xMax m <? Glyph.Metrics.xMin m)%float = true.
Proof.
  eexists. split; [vm_compute; reflexivity|]. repeat split.
Qed.

End GetMetrics.

(** ** getContours *)

Module GetContours.

Definition scan (points : list Glyph.Point)
  : list (list Glyph.Point) * list Glyph.Point :=
  fold_left Glyph.getContours_step points ([], []).

Lemma scan_from_concat (points : list Glyph.Point)
  (contours : list (list Glyph.Point)) (current : list Glyph.Point) :
  let st := fold_left Glyph.getContours_step points (contours, current) in
  List.concat (fst st) ++ snd st = List.concat contours ++ current ++ points.
Proof.
  revert contours current.
  induction points as [|pt points IH]; intros contours current; simpl.
  - now rewrite app_nil_r.
  - destruct (Glyph.lastPointOfContour pt).
    + rewrite IH. rewrite concat_app. simpl.
      rewrite !app_nil_r, <- !app_assoc. reflexivity.
    + rewrite IH. now rewrite <- !app_assoc.
Qed.

Lemma scan_from_length (points : list Glyph.Point)
  (contours : list (list Glyph.Point)) (current : list Glyph.Point) :
  List.length (fst (fold_left Glyph.getContours_step points (contours, current)))
  = (List.length contours + Spec.flagged points)%nat.
Proof.
  unfold Spec.flagged. revert contours current.
  induction points as [|pt points IH]; intros contours current; simpl.
  - lia.
  - destruct (Glyph.lastPointOfContour pt); rewrite IH; simpl.
    + rewrite length_app. simpl. lia.
    + reflexivity.
Qed.

(** What is left in progress after the scan: nothing exactly when the
    list is empty or ends with a flagged point. *)
Lemma scan_leftover (points : list Glyph.Point) :
  snd (scan points) = [] <-> Spec.ends_flagged points = true.
Proof.
  unfold scan, Spec.ends_flagged.
  rewrite <- (rev_involutive points) at 1.
  destruct (rev points) as [|pt init]; simpl.
  - tauto.
  - rewrite fold_left_app. simpl.
    destruct (fold_left Glyph.getContours_step (rev init) ([], []))
      as [contours current].
    simpl. destruct (Glyph.lastPointOfContour pt); simpl.
    + tauto.
    + split; [|discriminate]. now destruct current.
Qed.

(** C4.  Without a point list [getContours] returns the empty list of
    contours; with a list of N points of which k are flagged
    [lastPointOfContour], the last of the N among them, it returns k
    contours whose concatenation, in order, is the point list. *)
Theorem getContours_partitions (g : Glyph.Glyph) :
  (Glyph.points g = None -> Glyph.getContours g = Normal [])
  /\ (forall points,
        Glyph.points g = Some points ->
        Spec.ends_flagged points = true ->
        exists contours,
          Glyph.getContours g = Normal contours
          /\ List.length contours = Spec.flagged points
          /\ List.concat contours = points).
Proof.
  split.
  - intros H. unfold Glyph.getContours. now rewrite H.
  - intros points Hpoints Hlast.
    unfold Glyph.getContours. rewrite Hpoints.
    pose proof (scan_from_concat points [] []) as Hcat.
    pose proof (scan_from_length points [] []) as Hlen.
    apply scan_leftover in Hlast. unfold scan in Hlast.
    destruct (fold_left Glyph.getContours_step points ([], []))
      as [contours current].
    simpl in *. subst current. simpl.
    exists contours. rewrite app_nil_r in Hcat. auto.
Qed.

(** Five points with the third and the fifth flagged give the two
    contours of three and of two points. *)
Lemma getContours_partitions_witness :
  Glyph.getContours (Examples.with_points Examples.two_contours)
  = Normal [firstn 3 Examples.two_contours; skipn 3 Examples.two_contours]
  /\ exists contours,
       Glyph.getContours (Examples.with_points Examples.two_contours)
       = Normal contours
       /\ List.length contours = 2%nat
       /\ List.concat contours = Examples.two_contours.
Proof.
  split; [reflexivity|].
  exact (proj2 (getContours_partitions (Examples.with_points Examples.two_contours))
           Examples.two_contours eq_refl eq_refl).
Defined.

(** C5.  When the scan of the point list leaves a non-empty group in
    progress, which happens exactly when the list is not empty and its
    final point is not flagged [lastPointOfContour], [getContours] throws
    an error with a description and returns no contours. *)
Theorem getContours_rejects_leftover (g : Glyph.Glyph) (points : list Glyph.Point) :
  Glyph.points g = Some points ->
  (snd (scan points) <> [] <-> Spec.ends_flagged points = false)
  /\ (snd (scan points) <> [] ->
      Glyph.getContours g = Throw (Error Glyph.leftover_message)).
Proof.
  intros Hpoints. split.
  - rewrite scan_leftover. now destruct (Spec.ends_flagged points).
  - intros Hleft. unfold Glyph.getContours. rewrite Hpoints.
    unfold scan in Hleft.
    destruct (fold_left Glyph.getContours_step points ([], []))
      as [contours current].
    simpl in *. now destruct current.
Qed.

(** Five points whose final point is not flagged: the last two are left
    over and the call throws. *)
Lemma getContours_rejects_leftover_witness :
  Glyph.getContours (Examples.with_points Examples.unfinished)
  = Throw (Error "There are still points left in the current contour.").
Proof.
  destruct (getContours_rejects_leftover
              (Examples.with_points Examples.unfinished) Examples.unfinished
              eq_refl) as [Hiff Hthrow].
  apply Hthrow. apply Hiff. reflexivity.
Defined.

End GetContours.

(** ** The constructor *)

Module Constructor.

(** C10.  The initialiser of [unicodes] reads
    [(options.unicodes || options.unicode !== undefined) ? [options.unicode] : []]:
    when [options.unicodes] is given (an array, which is truthy) or
    [options.unicode] is defined, [unicodes] is the singleton
    [[options.unicode]] whatever list was given, so that a list given
    without [unicode] yields [[undefined]]; [unicodes] is empty only when
    both are left out. *)
Theorem unicodes_is_singleton_or_empty (options : Glyph.Options) :
  (Glyph.o_unicodes options <> None \/ Glyph.o_unicode options <> None ->
   Glyph.unicodes (Glyph.new options) = [Glyph.o_unicode options])
  /\ (forall given,
        Glyph.o_unicodes options = Some given ->
        Glyph.o_unicode options = None ->
        Glyph.unicodes (Glyph.new options) = [None])
  /\ (Glyph.unicodes (Glyph.new options) = []
      <-> Glyph.o_unicodes options = None /\ Glyph.o_unicode options = None).
Proof.
  unfold Glyph.new. cbn [Glyph.unicodes].
  destruct (Glyph.o_unicodes options) as [given|],
           (Glyph.o_unicode options) as [u|]; cbn.
  all: repeat split; try discriminate; try congruence; intuition congruence.
Qed.

(** A glyph constructed with the list [65, 97] and no [unicode]. *)
Definition listed : Glyph.Options :=
  {| Glyph.o_font := None;
     Glyph.o_index := None; Glyph.o_name := None;
     Glyph.o_unicode := None;
     Glyph.o_unicodes := Some [Some 65%Z; Some 97%Z];
     Glyph.o_xMin := None; Glyph.o_yMin := None;
     Glyph.o_xMax := None; Glyph.o_yMax := None;
     Glyph.o_advanceWidth := None;
     Glyph.o_path := None |}.

(** The list [65, 97] given without [unicode] is dropped: [unicodes] is
    [[undefined]]. *)
Lemma unicodes_is_singleton_or_empty_witness :
  Glyph.unicodes (Glyph.new listed) = [None].
Proof.
  destruct (unicodes_is_singleton_or_empty listed) as (H & _ & _).
  apply H. left. discriminate.
Defined.

End Constructor.

(** ** draw *)

Module Draw.

Section Sink.

Context {S : Type} `{Path.Context2D S}.

Lemma step_observed (s : S) (log : list Path.Call) (cmd : Command) :
  Path.draw_step (s, log) cmd = (Path.draw_step s cmd, log ++ [Path.call_of cmd]).
Proof. destruct cmd; reflexivity. Qed.

Lemma loop_observed (cmds : list Command) (s : S) (log : list Path.Call) :
  fold_left Path.draw_step cmds (s, log)
  = (fold_left Path.draw_step cmds s, log ++ map Path.call_of cmds).
Proof.
  revert s log.
  induction cmds as [|cmd cmds IH]; intros s log; cbn [fold_left map].
  - now rewrite app_nil_r.
  - rewrite step_observed, IH, <- app_assoc. reflexivity.
Qed.

(** What any sink receives from [draw], and the state it is left in. *)
Lemma draw_observed (this : Path.Path) (s : S) :
  Path.draw this (s, []) = (Path.draw this s, Spec.calls this).
Proof.
  unfold Path.draw, Spec.calls, Path.paint_calls.
  cbn [Path.ctx_beginPath Path.Observed app].
  rewrite loop_observed. cbn [app].
  destruct (Path.fill this) as [fill|], (Path.stroke this) as [stroke|];
    cbn [truthy or_default];
    try destruct (truthy_string fill); try destruct (truthy_string stroke);
    cbn; rewrite <- ?app_assoc, ?app_nil_r; cbn; reflexivity.
Qed.

End Sink.

(** C8.  Whatever the sink, [draw] sends it [beginPath], then one call
    per command in the order of the commands and with the command's own
    coordinates ([moveTo] for M, [lineTo] for L, [bezierCurveTo] for C,
    [quadraticCurveTo] for Q, [closePath] for Z), then the fill style and
    [fill] exactly when [fill] is set, then the stroke style, the line
    width [strokeWidth] and [stroke] exactly when [stroke] is set.  The
    sequence is a function of the path alone: two sinks, whatever their
    methods do and whatever state they start in, receive the same calls. *)
Theorem draw_calls_do_not_depend_on_sink
  (S1 S2 : Type) (sink1 : Path.Context2D S1) (sink2 : Path.Context2D S2)
  (this : Path.Path) (s1 : S1) (s2 : S2) :
  snd (Path.draw this (s1, [])) = snd (Path.draw this (s2, []))
  /\ snd (Path.draw this (s1, []))
     = Path.BeginPath
       :: map Path.call_of (Path.commands this)
       ++ (if truthy (Path.fill this)
           then [Path.SetFillStyle (or_default (Path.fill this) EmptyString);
                 Path.Fill]
           else [])
       ++ (if truthy (Path.stroke this)
           then [Path.SetStrokeStyle (or_default (Path.stroke this) EmptyString);
                 Path.SetLineWidth (Path.strokeWidth this);
                 Path.Stroke]
           else [])
  /\ fst (Path.draw this (s1, [])) = Path.draw this s1.
Proof.
  rewrite !draw_observed. repeat split.
Qed.

End Draw.

(** ** Strings *)

Module Strings.

Lemma append_nil_r (s : string) : s +++ EmptyString = s.
Proof. induction s as [|c s IH]; simpl; congruence. Qed.

Lemma append_assoc (a b c : string) : (a +++ b) +++ c = a +++ b +++ c.
Proof. induction a as [|x a IH]; simpl; congruence. Qed.

Lemma length_append (a b : string) :
  String.length (a +++ b) = (String.length a + String.length b)%nat.
Proof. induction a as [|x a IH]; simpl; congruence. Qed.

End Strings.

(** ** toPathData: the layout of the text *)

Module Layout.

Lemma packValues_from_packed (d : Z) (values : list float) (i : nat) (s : string) :
  Path.packValues_from d i s values
  = (texts <- Spec.traverse (Path.floatToString d) values ;;
     Normal (s +++ Spec.packed_from i values texts)).
Proof.
  revert i s.
  induction values as [|v values IH]; intros i s;
    cbn [Path.packValues_from Spec.traverse Spec.packed_from bind].
  - now rewrite Strings.append_nil_r.
  - destruct (Path.floatToString d v) as [text|e]; cbn [bind]; [|reflexivity].
    rewrite IH.
    destruct (Spec.traverse (Path.floatToString d) values) as [texts|e];
      cbn [bind]; [|reflexivity].
    f_equal. unfold Spec.separator.
    replace (negb (Nat.eqb i 0)) with (0 <? i)%nat by now destruct i.
    destruct ((0 <=? v)%float && (0 <? i)%nat);
      now rewrite ?Strings.append_assoc.
Qed.

Lemma packValues_packed (d : Z) (values : list float) :
  Path.packValues d values
  = (texts <- Spec.traverse (Path.floatToString d) values ;;
     Normal (Spec.packed values texts)).
Proof.
  unfold Path.packValues. now rewrite packValues_from_packed.
Qed.

(** The text of one command: its letter, then its packed coordinates. *)
Definition command_text (d : Z) (cmd : Command) : completion string :=
  texts <- Spec.traverse (Path.floatToString d) (Spec.coordinates cmd) ;;
  Normal (Cmd.type cmd +++ Spec.packed (Spec.coordinates cmd) texts).

Lemma step_command_text (d : Z) (acc : string) (cmd : Command) :
  Path.toPathData_step d acc cmd
  = (text <- command_text d cmd ;; Normal (acc +++ text)).
Proof.
  unfold command_text.
  destruct cmd; cbn [Path.toPathData_step Cmd.has_type Cmd.type String.eqb
                       Ascii.eqb Bool.eqb Spec.coordinates
                       Cmd.x Cmd.y Cmd.x1 Cmd.y1 Cmd.x2 Cmd.y2];
    rewrite ?packValues_packed;
    try (destruct (Spec.traverse _ _) as [texts|e]; reflexivity).
  reflexivity.
Qed.

Lemma loop_join (d : Z) (cmds : list Command) (acc : string) :
  Path.toPathData_loop d acc cmds
  = (texts <- Spec.traverse (command_text d) cmds ;;
     Normal (acc +++ Spec.join texts)).
Proof.
  revert acc.
  induction cmds as [|cmd cmds IH]; intros acc;
    cbn [Path.toPathData_loop Spec.traverse bind Spec.join fold_right].
  - now rewrite Strings.append_nil_r.
  - rewrite step_command_text.
    destruct (command_text d cmd) as [text|e]; cbn [bind]; [|reflexivity].
    rewrite IH.
    destruct (Spec.traverse (command_text d) cmds) as [texts|e];
      cbn [bind Spec.join fold_right]; [|reflexivity].
    now rewrite Strings.append_assoc.
Qed.

Lemma floatToString_returns (d : Z) (v : float) :
  (0 <= d <= 100)%Z -> exists text, Path.floatToString d v = Normal text.
Proof.
  intros Hd. unfold Path.floatToString, Number_toFixed.
  destruct (Math_round v =? v)%float; [eauto|].
  replace ((d <? 0)%Z || (100 <? d)%Z) with false
    by (symmetry; apply orb_false_iff; split; lia).
  destruct (Prim2SF v) as [s|s| |s m e]; eauto.
  destruct (_ <=? _)%Z; eauto.
Qed.

Lemma traverse_returns {A B : Type} (f : A -> completion B) (l : list A) :
  (forall a, In a l -> exists b, f a = Normal b) ->
  exists bs, Spec.traverse f l = Normal bs /\ Forall2 (fun a b => f a = Normal b) l bs.
Proof.
  induction l as [|a l IH]; intros H; cbn [Spec.traverse].
  - exists []. split; [reflexivity|constructor].
  - destruct (H a (or_introl eq_refl)) as [b Hb].
    destruct IH as (bs & Hbs & Hall); [intros; apply H; now right|].
    exists (b :: bs). rewrite Hb, Hbs. split; [reflexivity|now constructor].
Qed.

(** C7.  [packValues] puts, before the text of the value at index [i],
    one space when the value is not below zero and [i] is not 0, and
    nothing otherwise: nothing before a negative value, nothing before the
    first value.  [toPathData] puts the commands end to end, each as its
    letter M, L, C, Q or Z followed at once by its packed coordinates.
    With [decimalPlaces] from 0 to 100 the call returns. *)
Theorem toPathData_packs_values (this : Path.Path) (decimalPlaces : option Z) :
  let d := or_default decimalPlaces 2%Z in
  (forall values,
     Path.packValues d values
     = (texts <- Spec.traverse (Path.floatToString d) values ;;
        Normal (Spec.packed values texts)))
  /\ (forall i v values text texts,
        Spec.packed_from i (v :: values) (text :: texts)
        = Spec.separator i v +++ text +++ Spec.packed_from (S i) values texts
        /\ (Spec.separator i v = " "
            <-> (0 <=? v)%float = true /\ i <> 0%nat)
        /\ (Spec.separator i v = EmptyString
            <-> ~ ((0 <=? v)%float = true /\ i <> 0%nat))
        /\ ((v <? 0)%float = true -> Spec.separator i v = EmptyString)
        /\ Spec.separator 0 v = EmptyString)
  /\ Path.toPathData this decimalPlaces
     = (texts <- Spec.traverse
                   (fun cmd =>
                      texts <- Spec.traverse (Path.floatToString d)
                                 (Spec.coordinates cmd) ;;
                      Normal (Cmd.type cmd
                              +++ Spec.packed (Spec.coordinates cmd) texts))
                   (Path.commands this) ;;
        Normal (Spec.join texts))
  /\ ((0 <= d <= 100)%Z ->
      exists text, Path.toPathData this decimalPlaces = Normal text).
Proof.
  intros d. split; [|split; [|split]].
  - apply packValues_packed.
  - intros i v values text texts. split; [reflexivity|].
    unfold Spec.separator.
    assert (Hneg : (v <? 0)%float = true -> (0 <=? v)%float = false).
    { rewrite ltb_spec, leb_spec. unfold SFltb, SFleb.
      destruct (Prim2SF v) as [s|s| |s m e]; simpl; try discriminate;
        destruct s; simpl; congruence. }
    destruct (0 <=? v)%float, i; cbn; repeat split; try discriminate;
      try tauto; try (intros [H1 H2]; congruence); try congruence;
      try (intros H; now apply Hneg in H);
      try (intros H; exfalso; apply H; split; congruence);
      try (intros _ [H1 H2]; congruence).
  - unfold Path.toPathData. fold d. rewrite loop_join. reflexivity.
  - intros Hd. unfold Path.toPathData. fold d. rewrite loop_join.
    assert (Hcmd : forall cmd, In cmd (Path.commands this) ->
                     exists text, command_text d cmd = Normal text).
    { intros cmd _. unfold command_text.
      destruct (traverse_returns (Path.floatToString d) (Spec.coordinates cmd))
        as (texts & -> & _); [|cbn [bind]; eauto].
      intros v _. now apply floatToString_returns. }
    destruct (traverse_returns _ _ Hcmd) as (texts & -> & _).
    cbn [bind]. eauto.
Qed.

(** The path M 0,0 L 10.5,-3 C 1,2 -3,4.125 5,6 Z with two decimal
    places. *)
Lemma toPathData_packs_values_witness :
  Path.toPathData
    (Examples.with_commands
       [MoveTo 0 0; LineTo 10.5 (-3); CurveTo 1 2 (-3) 4.125 5 6; ClosePath])
    None
  = Normal "M0 0L10.50-3C1 2-3 4.13 5 6Z"
  /\ exists text,
       Path.toPathData
         (Examples.with_commands
            [MoveTo 0 0; LineTo 10.5 (-3); CurveTo 1 2 (-3) 4.125 5 6; ClosePath])
         None
       = Normal text.
Proof.
  split; [reflexivity|].
  refine (proj2 (proj2 (proj2 (toPathData_packs_values _ None))) _).
  cbn. lia.
Defined.

End Layout.

(** ** Doubles as exact values *)

Module Doubles.

Open Scope Z_scope.

Lemma digits2_bounds (m : positive) :
  2 ^ (Zpos (digits2_pos m) - 1) <= Zpos m < 2 ^ Zpos (digits2_pos m).
Proof.
  induction m as [m IH|m IH|]; cbn [digits2_pos].
  - rewrite Pos2Z.inj_succ, Z.pow_succ_r by lia.
    replace (Z.succ (Zpos (digits2_pos m)) - 1) with (Z.succ (Zpos (digits2_pos m) - 1)) by lia.
    rewrite Z.pow_succ_r by lia. lia.
  - rewrite Pos2Z.inj_succ, Z.pow_succ_r by lia.
    replace (Z.succ (Zpos (digits2_pos m)) - 1) with (Z.succ (Zpos (digits2_pos m) - 1)) by lia.
    rewrite Z.pow_succ_r by lia. lia.
  - cbn. lia.
Qed.

Lemma digits2_unique (m : positive) (d : Z) :
  2 ^ (d - 1) <= Zpos m < 2 ^ d -> Zpos (digits2_pos m) = d.
Proof.
  intros [Hlo Hhi]. pose proof (digits2_bounds m) as [Hlo' Hhi'].
  assert (0 < d).
  { destruct (Z.lt_ge_cases 0 d) as [|Hd]; [assumption|].
    destruct (Z.eq_dec d 0) as [->|]; [cbn in Hhi; lia|].
    rewrite Z.pow_neg_r in Hhi by lia. lia. }
  assert (d - 1 < Zpos (digits2_pos m)).
  { apply (Z.pow_lt_mono_r_iff 2); lia. }
  assert (Zpos (digits2_pos m) - 1 < d).
  { apply (Z.pow_lt_mono_r_iff 2); lia. }
  lia.
Qed.

(** What the validity of [Prim2SF v] says of a finite non-zero double. *)
Lemma finite_bounds (v : float) (s : bool) (m : positive) (e : Z) :
  Prim2SF v = S754_finite s m e ->
  Zpos m < 2 ^ 53 /\ -1074 <= e <= 971 /\ (2 ^ 52 <= Zpos m \/ e = -1074).
Proof.
  intros Hv. pose proof (Prim2SF_valid v) as Hvalid. rewrite Hv in Hvalid.
  cbn [SpecFloat.valid_binary] in Hvalid.
  unfold bounded, canonical_mantissa, fexp, SpecFloat.emin in Hvalid.
  apply andb_true_iff in Hvalid as [Hcan Hmax].
  apply Z.eqb_eq in Hcan. apply Z.leb_le in Hmax.
  change prec with 53 in *. change emax with 1024 in *.
  pose proof (digits2_bounds m) as [Hlo Hhi].
  assert (Hd : Zpos (digits2_pos m) <= 53) by lia.
  assert (2 ^ Zpos (digits2_pos m) <= 2 ^ 53)
    by (apply Z.pow_le_mono_r; lia).
  repeat split; try lia.
  destruct (Z.eq_dec e (-1074)) as [|He]; [now right|left].
  assert (Zpos (digits2_pos m) = 53) as Hd53 by lia.
  rewrite Hd53 in Hlo. exact Hlo.
Qed.

Lemma eqb_self (v : float) :
  is_nan v = false -> (v =? v)%float = true.
Proof. unfold is_nan. now destruct (v =? v)%float. Qed.

Lemma prim_not_nan (v : float) :
  Prim2SF v <> S754_nan -> is_nan v = false.
Proof.
  intros H. unfold is_nan. rewrite eqb_spec.
  unfold SFeqb, SFcompare.
  destruct (Prim2SF v) as [s|s| |s m e]; try congruence; try (now destruct s).
  destruct s; rewrite Z.compare_refl, Pos.compare_cont_refl; reflexivity.
Qed.

Lemma SFeqb_finite (s1 s2 : bool) (m1 m2 : positive) (e1 e2 : Z) :
  SFeqb (S754_finite s1 m1 e1) (S754_finite s2 m2 e2) = true ->
  m1 = m2 /\ e1 = e2.
Proof.
  unfold SFeqb, SFcompare.
  destruct s1, s2; try discriminate;
    destruct (Z.compare_spec e1 e2); try discriminate;
    fold (Pos.compare m1 m2); destruct (Pos.compare_spec m1 m2);
    try discriminate; auto.
Qed.

(** [of_small_pos s n] is the double of sign [s] and value [n]. *)
Lemma of_small_pos_spec (s : bool) (n : positive) :
  Zpos n < 2 ^ 53 ->
  exists m e,
    Prim2SF (of_small_pos s n) = S754_finite s m e
    /\ integral_mantissa m e = true.
Proof.
  intros Hn. unfold of_small_pos.
  pose proof (digits2_bounds n) as [Hlo Hhi].
  set (d := Zpos (digits2_pos n)) in *.
  assert (Hd : 1 <= d <= 53).
  { split; [unfold d; lia|].
    destruct (Z.le_gt_cases d 53) as [|Hgt]; [assumption|].
    assert (2 ^ 53 <= 2 ^ (d - 1)) by (apply Z.pow_le_mono_r; lia). lia. }
  assert (Hpow : 0 < 2 ^ (53 - d)) by (apply Z.pow_pos_nonneg; lia).
  assert (Hm : Zpos (Z.to_pos (Zpos n * 2 ^ (53 - d))) = Zpos n * 2 ^ (53 - d))
    by (apply Z2Pos.id; lia).
  assert (Hdigits : Zpos (digits2_pos (Z.to_pos (Zpos n * 2 ^ (53 - d)))) = 53).
  { apply digits2_unique. rewrite Hm.
    replace (2 ^ (53 - 1)) with (2 ^ (d - 1) * 2 ^ (53 - d))
      by (rewrite <- Z.pow_add_r by lia; f_equal; lia).
    replace (2 ^ 53) with (2 ^ d * 2 ^ (53 - d))
      by (rewrite <- Z.pow_add_r by lia; f_equal; lia).
    split; [apply Z.mul_le_mono_nonneg_r|apply Z.mul_lt_mono_pos_r]; lia. }
  eexists _, _. split.
  - apply Prim2SF_SF2Prim.
    cbn [SpecFloat.valid_binary]. unfold bounded, canonical_mantissa, fexp, SpecFloat.emin.
    change prec with 53. change emax with 1024.
    rewrite Hdigits. apply andb_true_iff. split.
    + apply Z.eqb_eq. lia.
    + apply Z.leb_le. lia.
  - unfold integral_mantissa. apply orb_true_iff. right.
    apply Z.eqb_eq. rewrite Hm.
    replace (- (d - 53)) with (53 - d) by lia.
    apply Z.mod_mul. lia.
Qed.

Lemma round_of_integral (v : float) :
  is_integral v = true -> Math_round v = v.
Proof.
  unfold is_integral, Math_round.
  destruct (Prim2SF v) as [s|s| |s m e]; try reflexivity.
  now intros ->.
Qed.

Lemma integral_not_nan (v : float) :
  is_integral v = true -> is_nan v = false.
Proof.
  intros H. apply prim_not_nan. unfold is_integral in H.
  destruct (Prim2SF v); congruence.
Qed.

(** The test [Math.round(v) === v] holds of a whole number... *)
Lemma round_test_integral (v : float) :
  is_integral v = true -> (Math_round v =? v)%float = true.
Proof.
  intros H. rewrite (round_of_integral v H).
  apply eqb_self. now apply integral_not_nan.
Qed.

Lemma not_eqb_integral (r v : float) (s s' : bool) (m m' : positive) (e e' : Z) :
  Prim2SF v = S754_finite s m e ->
  integral_mantissa m e = false ->
  Prim2SF r = S754_finite s' m' e' ->
  integral_mantissa m' e' = true ->
  (r =? v)%float = false.
Proof.
  intros Hv Hfrac Hr Hint. rewrite eqb_spec, Hv, Hr.
  destruct (SFeqb _ _) eqn:E; [|reflexivity].
  apply SFeqb_finite in E as [-> ->]. congruence.
Qed.

(** ... and fails for a finite number that is not whole. *)
Lemma round_test_fractional (v : float) (s : bool) (m : positive) (e : Z) :
  Prim2SF v = S754_finite s m e ->
  integral_mantissa m e = false ->
  (Math_round v =? v)%float = false.
Proof.
  intros Hv Hfrac. unfold Math_round. rewrite Hv, Hfrac.
  destruct (finite_bounds v s m e Hv) as (Hm & He & _).
  pose proof Hfrac as Hfrac'.
  unfold integral_mantissa in Hfrac'. apply orb_false_iff in Hfrac' as [He0 _].
  apply Z.leb_gt in He0.
  set (k := - e). assert (Hk : 1 <= k) by (unfold k; lia).
  assert (Hpk : 2 <= 2 ^ k).
  { change 2 with (2 ^ 1) at 1. apply Z.pow_le_mono_r; lia. }
  assert (Hpk1 : 2 ^ (k + 1) = 2 * 2 ^ k)
    by (rewrite Z.pow_add_r by lia; lia).
  set (N := (if s then - (2 * Zpos m) else 2 * Zpos m) + 2 ^ k).
  assert (HN : - (2 ^ 53 * (2 * 2 ^ k)) < N < 2 ^ 53 * (2 * 2 ^ k))
    by (unfold N; destruct s; nia).
  rewrite Hpk1.
  assert (Hr : - 2 ^ 53 + 1 <= N / (2 * 2 ^ k) < 2 ^ 53).
  { split.
    - apply Z.div_le_lower_bound; [lia|]. unfold N. destruct s; nia.
    - apply Z.div_lt_upper_bound; lia. }
  destruct (N / (2 * 2 ^ k)) as [|n|n] eqn:Er.
  - rewrite eqb_spec, Hv.
    destruct s; reflexivity.
  - destruct (of_small_pos_spec false n) as (m' & e' & Hr' & Hint); [lia|].
    exact (not_eqb_integral _ _ _ _ _ _ _ _ Hv Hfrac Hr' Hint).
  - destruct (of_small_pos_spec true n) as (m' & e' & Hr' & Hint); [lia|].
    exact (not_eqb_integral _ _ _ _ _ _ _ _ Hv Hfrac Hr' Hint).
Qed.

End Doubles.

(** ** Digits and points *)

Module Digits.

Lemma length_zeros (n : nat) : String.length (zeros n) = n.
Proof. induction n as [|n IH]; simpl; congruence. Qed.

Lemma length_substring (s : string) (i j : nat) :
  (i + j <= String.length s)%nat -> String.length (substring i j s) = j.
Proof.
  revert i j. induction s as [|c s IH]; intros i j H; simpl in *.
  - destruct i, j; simpl; lia.
  - destruct i as [|i].
    + destruct j as [|j]; [reflexivity|]. simpl. rewrite IH; lia.
    + apply IH. lia.
Qed.

Lemma all_digits_append (a b : string) :
  Spec.all_digits (a +++ b) = Spec.all_digits a && Spec.all_digits b.
Proof.
  induction a as [|x a IH]; simpl; [reflexivity|].
  now rewrite IH, andb_assoc.
Qed.

Lemma all_digits_zeros (n : nat) : Spec.all_digits (zeros n) = true.
Proof. induction n as [|n IH]; simpl; [reflexivity|exact IH]. Qed.

Lemma all_digits_substring (s : string) (i j : nat) :
  Spec.all_digits s = true -> Spec.all_digits (substring i j s) = true.
Proof.
  revert i j. induction s as [|c s IH]; intros i j H; simpl in *.
  - now destruct i, j.
  - apply andb_true_iff in H as [Hc Hs].
    destruct i as [|i]; [|now apply IH].
    destruct j as [|j]; [reflexivity|]. simpl. now rewrite Hc, IH.
Qed.

Lemma digit_char_is_digit (d : Z) :
  (0 <= d < 10)%Z -> Spec.is_digit (digit_char d) = true.
Proof.
  intros H. unfold Spec.is_digit, digit_char.
  rewrite nat_ascii_embedding by lia.
  apply andb_true_iff. split; apply Nat.leb_le; lia.
Qed.

Lemma all_digits_fuel (fuel : nat) (n : Z) (acc : string) :
  Spec.all_digits acc = true ->
  Spec.all_digits (digits_fuel fuel n acc) = true.
Proof.
  revert n acc.
  induction fuel as [|fuel IH]; intros n acc Hacc; cbn [digits_fuel].
  - exact Hacc.
  - assert (Hd : Spec.all_digits (String (digit_char (n mod 10)) acc) = true).
    { cbn [Spec.all_digits]. rewrite Hacc, digit_char_is_digit; [reflexivity|].
      apply Z.mod_pos_bound. lia. }
    destruct (n <? 10)%Z; [exact Hd|]. now apply IH.
Qed.

Lemma all_digits_of (n : Z) : Spec.all_digits (digits_of n) = true.
Proof. now apply all_digits_fuel. Qed.

Lemma length_digits_fuel (fuel : nat) (n : Z) (acc : string) (j : nat) :
  (0 <= n < 10 ^ Z.of_nat j)%Z -> (1 <= j)%nat ->
  (String.length (digits_fuel fuel n acc) <= j + String.length acc)%nat.
Proof.
  revert n acc j.
  induction fuel as [|fuel IH]; intros n acc j Hn Hj; cbn [digits_fuel].
  - lia.
  - destruct (n <? 10)%Z eqn:E; cbn [String.length]; [lia|].
    apply Z.ltb_ge in E.
    destruct j as [|[|j]]; [lia| |].
    + cbn in Hn. lia.
    + specialize (IH (n / 10)%Z (String (digit_char (n mod 10)) acc) (S j)).
      cbn [String.length] in IH.
      assert (Hn' : (0 <= n / 10 < 10 ^ Z.of_nat (S j))%Z).
      { split; [apply Z.div_pos; lia|].
        apply Z.div_lt_upper_bound; [lia|].
        replace (Z.of_nat (S (S j))) with (Z.succ (Z.of_nat (S j))) in Hn by lia.
        rewrite Z.pow_succ_r in Hn by lia. lia. }
      specialize (IH Hn' ltac:(lia)). lia.
Qed.

Lemma length_digits_of (n : Z) (j : nat) :
  (0 <= n < 10 ^ Z.of_nat j)%Z -> (1 <= j)%nat ->
  (String.length (digits_of n) <= j)%nat.
Proof.
  intros Hn Hj. unfold digits_of.
  pose proof (length_digits_fuel (S (Z.to_nat (Z.log2 n))) n EmptyString j Hn Hj)
    as H.
  cbn [String.length] in H. lia.
Qed.


(** A text of digits has no point; neither has it after a sign. *)
Lemma fraction_digits (s : string) :
  Spec.all_digits s = true -> Spec.fraction s = None.
Proof.
  induction s as [|c s IH]; simpl; [reflexivity|].
  intros H. apply andb_true_iff in H as [Hc Hs].
  destruct (Ascii.eqb_spec c "."%char) as [->|]; [discriminate Hc|auto].
Qed.

Lemma fraction_after_digits (a b : string) :
  Spec.all_digits a = true -> Spec.fraction (a +++ "." +++ b) = Some b.
Proof.
  induction a as [|c a IH]; simpl; [reflexivity|].
  intros H. apply andb_true_iff in H as [Hc Hs].
  destruct (Ascii.eqb_spec c "."%char) as [->|]; [discriminate Hc|auto].
Qed.

Lemma fraction_signed (s : bool) (text : string) :
  Spec.fraction ((if s then "-" else EmptyString) +++ text) = Spec.fraction text.
Proof. now destruct s. Qed.

End Digits.

(** ** The shortest decimal of a double *)

Module Shortest.

Open Scope Z_scope.

Lemma scaleA_pos (e p : Z) : 0 < scaleA e p.
Proof. unfold scaleA. apply Z.mul_pos_pos; apply Z.pow_pos_nonneg; lia. Qed.

Lemma scaleB_pos (e p : Z) : 0 < scaleB e p.
Proof. unfold scaleB. apply Z.mul_pos_pos; apply Z.pow_pos_nonneg; lia. Qed.

Lemma lo_pos (m : positive) (e : Z) : 0 < lo m e.
Proof. unfold lo, below. destruct (_ && _); lia. Qed.

(** A candidate is at least 1 and, scaled, at most the upper end of the
    interval. *)
Lemma candidate_range (m : positive) (e p t : Z) :
  candidate m e p = Some t ->
  1 <= t /\ t * scaleA e p <= hi m * scaleB e p.
Proof.
  unfold candidate.
  pose proof (scaleA_pos e p) as HA. pose proof (scaleB_pos e p) as HB.
  pose proof (lo_pos m e) as HL.
  set (A := scaleA e p) in *. set (B := scaleB e p) in *.
  set (t_lo := if closed m then cdiv (lo m e * B) A else lo m e * B / A + 1).
  set (t_hi := if closed m then hi m * B / A else cdiv (hi m * B) A - 1).
  destruct (t_lo <=? t_hi) eqn:E; [|discriminate].
  apply Z.leb_le in E. intros [= <-].
  assert (Hlo : 1 <= t_lo).
  { unfold t_lo, cdiv. destruct (closed m).
    - assert (- (lo m e * B) / A < 0)
        by (apply Z.div_lt_upper_bound; nia).
      lia.
    - assert (0 <= lo m e * B / A) by (apply Z.div_pos; nia). lia. }
  assert (Hhi : t_hi * A <= hi m * B).
  { unfold t_hi, cdiv. destruct (closed m).
    - pose proof (Z.mul_div_le (hi m * B) A HA). lia.
    - pose proof (Z.div_mod (- (hi m * B)) A ltac:(lia)) as Hdm.
      pose proof (Z.mod_pos_bound (- (hi m * B)) A HA). nia. }
  split; [lia|].
  set (near := if _ <? _ then _ else _).
  assert (Z.max t_lo (Z.min t_hi near) <= t_hi) by lia.
  nia.
Qed.

(** The search stops at the largest exponent that has a candidate. *)
Lemma search_finds (m : positive) (e : Z) (fuel : nat) (p0 p1 : Z) :
  p0 - Z.of_nat fuel < p1 <= p0 ->
  candidate m e p1 <> None ->
  exists t p,
    search m e fuel p0 = (t, p) /\ p1 <= p <= p0 /\ candidate m e p = Some t.
Proof.
  revert p0. induction fuel as [|fuel IH]; intros p0 Hp Hc; [lia|].
  cbn [search]. destruct (candidate m e p0) as [t|] eqn:E.
  - exists t, p0. repeat split; [lia|lia|exact E].
  - assert (p1 <> p0) by congruence.
    destruct (IH (p0 - 1)) as (t & p & Hs & Hr & Hcand); [lia|exact Hc|].
    exists t, p. repeat split; [exact Hs|lia|lia|exact Hcand].
Qed.

(** A whole value is its own candidate with exponent 0. *)
Lemma candidate_of_whole (m : positive) (e : Z) :
  integral_mantissa m e = true -> candidate m e 0 <> None.
Proof.
  intros Hint. unfold candidate.
  pose proof (scaleA_pos e 0) as HA. pose proof (scaleB_pos e 0) as HB.
  assert (HV : exists V, V * scaleA e 0 = 4 * Zpos m * scaleB e 0).
  { unfold scaleA, scaleB.
    change (Z.max 0 0) with 0. change (Z.max (- 0) 0) with 0.
    change (10 ^ 0) with 1. rewrite !Z.mul_1_l.
    unfold integral_mantissa in Hint. apply orb_true_iff in Hint.
    destruct (Z.le_gt_cases 2 e) as [He|He].
    - rewrite (Z.max_r (2 - e) 0) by lia. change (2 ^ 0) with 1.
      exists (4 * Zpos m * 2 ^ Z.max (e - 2) 0). lia.
    - rewrite (Z.max_r (e - 2) 0) by lia. rewrite Z.max_l by lia.
      change (2 ^ 0) with 1. rewrite Z.mul_1_r.
      destruct (Z.le_gt_cases 0 e) as [He0|He0].
      + assert (e = 0 \/ e = 1) as [-> | ->] by lia.
        * exists (Zpos m). change (2 ^ (2 - 0)) with 4. lia.
        * exists (2 * Zpos m). change (2 ^ (2 - 1)) with 2. lia.
      + destruct Hint as [Hint|Hint]; [apply Z.leb_le in Hint; lia|].
        apply Z.eqb_eq in Hint.
        apply Z.mod_divide in Hint; [|apply Z.pow_nonzero; lia].
        destruct Hint as [q Hq]. exists q.
        replace (2 - e) with (2 + - e) by lia.
        rewrite Z.pow_add_r by lia. rewrite Hq. change (2 ^ 2) with 4. lia. }
  destruct HV as [V HV].
  set (A := scaleA e 0) in *. set (B := scaleB e 0) in *.
  assert (Hlo : lo m e * B < V * A).
  { rewrite HV. unfold lo, below. destruct (_ && _); nia. }
  assert (Hhi : V * A < hi m * B) by (rewrite HV; unfold hi; nia).
  set (t_lo := if closed m then cdiv (lo m e * B) A else lo m e * B / A + 1).
  set (t_hi := if closed m then hi m * B / A else cdiv (hi m * B) A - 1).
  assert (Ht : t_lo <= V <= t_hi).
  { unfold t_lo, t_hi, cdiv. destruct (closed m); split.
    - assert (- V <= - (lo m e * B) / A)
        by (apply Z.div_le_lower_bound; lia). lia.
    - apply Z.div_le_lower_bound; lia.
    - assert (lo m e * B / A < V) by (apply Z.div_lt_upper_bound; lia). lia.
    - assert (- (hi m * B) / A < - V)
        by (apply Z.div_lt_upper_bound; lia). lia. }
  replace (t_lo <=? t_hi) with true by (symmetry; apply Z.leb_le; lia).
  discriminate.
Qed.

End Shortest.

(** ** Whole numbers as text *)

Module Whole.

Open Scope Z_scope.

Lemma Prim2SF_1e21 : Prim2SF 1e21 = S754_finite false 7629394531250000 17.
Proof. reflexivity. Qed.

Lemma SFltb_finite (m m' : positive) (e e' : Z) :
  SFltb (S754_finite false m e) (S754_finite false m' e') = true ->
  e < e' \/ (e = e' /\ Zpos m < Zpos m').
Proof.
  unfold SFltb, SFcompare. rewrite Pos.compare_cont_spec.
  destruct (Z.compare_spec e e') as [->|?|?]; [right|now left|discriminate].
  split; [reflexivity|].
  destruct (Pos.compare_spec m m'); try discriminate. lia.
Qed.

(** [|v| < 1e21], read on the mantissa and the exponent. *)
Lemma below_1e21 (v : float) (s : bool) (m : positive) (e : Z) :
  Prim2SF v = S754_finite s m e ->
  (abs v <? 1e21)%float = true ->
  e < 17 \/ (e = 17 /\ Zpos m < 7629394531250000).
Proof.
  intros Hv H. rewrite ltb_spec, abs_spec, Hv, Prim2SF_1e21 in H.
  exact (SFltb_finite _ _ _ _ H).
Qed.

(** Below [1e21] the whole rounding interval is below [10^21]. *)
Lemma upper_end_below (m : positive) (e : Z) :
  Zpos m < 2 ^ 53 ->
  e < 17 \/ (e = 17 /\ Zpos m < 7629394531250000) ->
  hi m * 2 ^ Z.max (e - 2) 0 < 10 ^ 21 * 2 ^ Z.max (2 - e) 0.
Proof.
  intros Hm He. unfold hi.
  destruct (Z.le_gt_cases 2 e) as [He2|He2].
  - rewrite (Z.max_r (2 - e) 0) by lia. rewrite Z.max_l by lia.
    change (2 ^ 0) with 1.
    destruct He as [He|[-> Hm']].
    + assert (2 ^ (e - 2) <= 2 ^ 14) by (apply Z.pow_le_mono_r; lia).
      assert (0 < 2 ^ (e - 2)) by (apply Z.pow_pos_nonneg; lia).
      change (2 ^ 14) with 16384 in *. change (2 ^ 53) with 9007199254740992 in *.
      change (10 ^ 21) with 1000000000000000000000. nia.
    + change (2 ^ (17 - 2)) with 32768.
      change (10 ^ 21) with 1000000000000000000000. lia.
  - rewrite (Z.max_r (e - 2) 0) by lia. rewrite Z.max_l by lia.
    change (2 ^ 0) with 1.
    assert (0 < 2 ^ (2 - e)) by (apply Z.pow_pos_nonneg; lia).
    change (2 ^ 53) with 9007199254740992 in *.
    change (10 ^ 21) with 1000000000000000000000. nia.
Qed.

Lemma whole_has_bits (m : positive) (e : Z) :
  integral_mantissa m e = true -> 1 <= Zpos (digits2_pos m) + e.
Proof.
  intros Hint. unfold integral_mantissa in Hint. apply orb_true_iff in Hint.
  destruct (Z.le_gt_cases 0 e) as [He|He]; [lia|].
  destruct Hint as [Hint|Hint]; [apply Z.leb_le in Hint; lia|].
  apply Z.eqb_eq in Hint.
  apply Z.mod_divide in Hint; [|apply Z.pow_nonzero; lia].
  destruct Hint as [q Hq].
  assert (0 < 2 ^ (- e)) by (apply Z.pow_pos_nonneg; lia).
  assert (0 < q).
  { destruct (Z.lt_ge_cases 0 q) as [|Hq0]; [assumption|].
    assert (q * 2 ^ (- e) <= 0) by (apply Z.mul_nonpos_nonneg; lia). lia. }
  assert (2 ^ (- e) <= Zpos m).
  { rewrite Hq. rewrite <- (Z.mul_1_l (2 ^ (- e))) at 1.
    apply Z.mul_le_mono_nonneg_r; lia. }
  pose proof (Doubles.digits2_bounds m) as [_ Hhi].
  assert (- e < Zpos (digits2_pos m)) by (apply (Z.pow_lt_mono_r_iff 2); lia).
  lia.
Qed.

(** C6, whole numbers: a whole number below [1e21] in magnitude prints
    as a sign and digits, without a point. *)
Lemma toString_of_whole (v : float) :
  is_integral v = true ->
  (abs v <? 1e21)%float = true ->
  exists (s : bool) (digits : string),
    Number_toString v = (if s then "-" else EmptyString) +++ digits
    /\ Spec.all_digits digits = true.
Proof.
  intros Hint Hlt. unfold is_integral in Hint. unfold Number_toString.
  destruct (Prim2SF v) as [s|s| |s m e] eqn:Hv; try discriminate.
  - exists false, "0"%string. split; reflexivity.
  - destruct (Doubles.finite_bounds v s m e Hv) as (Hm & He & _).
    pose proof (below_1e21 v s m e Hv Hlt) as He17.
    pose proof (upper_end_below m e Hm He17) as Hup.
    pose proof (whole_has_bits m e Hint) as Hbits.
    pose proof (Doubles.digits2_bounds m) as [Hdlo _].
    assert (Hd : Zpos (digits2_pos m) <= 53).
    { destruct (Z.le_gt_cases (Zpos (digits2_pos m)) 53) as [|Hgt]; [assumption|].
      assert (2 ^ 53 <= 2 ^ (Zpos (digits2_pos m) - 1))
        by (apply Z.pow_le_mono_r; lia).
      lia. }
    assert (Hbound : 0 <= decimal_bound m e < 40).
    { unfold decimal_bound.
      assert (0 <= (Zpos (digits2_pos m) + e) * 30103 / 100000)
        by (apply Z.div_pos; lia).
      assert ((Zpos (digits2_pos m) + e) * 30103 / 100000 < 30)
        by (apply Z.div_lt_upper_bound; lia).
      lia. }
    destruct (Shortest.search_finds m e 40 (decimal_bound m e) 0)
      as (t & p & Hs & Hp & Hc);
      [lia|now apply Shortest.candidate_of_whole|].
    unfold shortest. rewrite Hs.
    destruct (Shortest.candidate_range m e p t Hc) as [Ht Hscaled].
    unfold scaleA, scaleB in Hscaled.
    rewrite (Z.max_l p 0), (Z.max_r (- p) 0) in Hscaled by lia.
    change (10 ^ 0) with 1 in Hscaled.
    assert (H2a : 0 < 2 ^ Z.max (2 - e) 0) by (apply Z.pow_pos_nonneg; lia).
    assert (H10p : 0 < 10 ^ p) by (apply Z.pow_pos_nonneg; lia).
    assert (Hval : t * 10 ^ p < 10 ^ 21) by nia.
    assert (Hp20 : p <= 20).
    { destruct (Z.le_gt_cases p 20) as [|Hgt]; [assumption|].
      assert (10 ^ 21 <= 10 ^ p) by (apply Z.pow_le_mono_r; lia). nia. }
    assert (Ht' : t < 10 ^ (21 - p)).
    { replace (10 ^ 21) with (10 ^ (21 - p) * 10 ^ p) in Hval
        by (rewrite <- Z.pow_add_r by lia; f_equal; lia).
      nia. }
    pose proof (Digits.length_digits_of t (Z.to_nat (21 - p))) as Hlen.
    rewrite Z2Nat.id in Hlen by lia.
    specialize (Hlen ltac:(lia) ltac:(lia)).
    exists s, (digits_of t +++ zeros (Z.to_nat p)). split.
    + f_equal. unfold format_digits.
      replace (_ && _) with true.
      * do 2 f_equal. lia.
      * symmetry. apply andb_true_iff. split; apply Z.leb_le; lia.
    + rewrite Digits.all_digits_append, Digits.all_digits_of,
        Digits.all_digits_zeros. reflexivity.
Qed.

End Whole.

(** ** toFixed *)

Module Fixed.

Open Scope Z_scope.

(** C6, other numbers: [toFixed] prints a finite number that is not whole
    with exactly [d] digits after the point, and without a point when [d]
    is 0. *)
Lemma toFixed_of_fraction (v : float) (d : Z) (s : bool) (m : positive) (e : Z) :
  Prim2SF v = S754_finite s m e ->
  integral_mantissa m e = false ->
  0 <= d <= 100 ->
  exists text,
    Number_toFixed v d = Normal text
    /\ Spec.fixed_to (Z.to_nat d) text = true.
Proof.
  intros Hv Hfrac Hd. unfold Number_toFixed.
  replace ((d <? 0) || (100 <? d)) with false
    by (symmetry; apply orb_false_iff; split; lia).
  rewrite Hv.
  destruct (Doubles.finite_bounds v s m e Hv) as (Hm & _ & _).
  unfold integral_mantissa in Hfrac. apply orb_false_iff in Hfrac as [He _].
  apply Z.leb_gt in He.
  rewrite (Z.max_l (- e) 0), (Z.max_r e 0) by lia.
  change (2 ^ 0) with 1. rewrite !Z.mul_1_r.
  assert (H2e : 0 < 2 ^ (- e)) by (apply Z.pow_pos_nonneg; lia).
  replace (10 ^ 21 * 2 ^ (- e) <=? Zpos m) with false.
  2:{ symmetry. apply Z.leb_gt.
      change (2 ^ 53) with 9007199254740992 in Hm.
      change (10 ^ 21) with 1000000000000000000000. nia. }
  set (n := (2 * Zpos m * 10 ^ d + 2 ^ (- e)) / (2 * 2 ^ (- e))).
  pose proof (Digits.all_digits_of n) as Hdigits.
  eexists. split; [reflexivity|].
  unfold Spec.fixed_to. rewrite Digits.fraction_signed.
  destruct (Z.eqb_spec d 0) as [->|Hd0].
  - rewrite Digits.fraction_digits by exact Hdigits. reflexivity.
  - cbv zeta.
    set (k := Z.of_nat (String.length (digits_of n))).
    set (padded := if k <=? d then zeros (Z.to_nat (d + 1 - k)) +++ digits_of n
                   else digits_of n).
    assert (Hpad : Spec.all_digits padded = true).
    { unfold padded. destruct (k <=? d); [|exact Hdigits].
      now rewrite Digits.all_digits_append, Digits.all_digits_zeros. }
    assert (Hlen : d + 1 <= Z.of_nat (String.length padded)).
    { unfold padded. destruct (Z.leb_spec k d).
      - rewrite Strings.length_append, Digits.length_zeros. unfold k in *. lia.
      - unfold k in *. lia. }
    rewrite Digits.fraction_after_digits
      by (now apply Digits.all_digits_substring).
    rewrite Digits.all_digits_substring by exact Hpad.
    rewrite Digits.length_substring by lia.
    rewrite Nat.eqb_refl.
    destruct (Nat.eqb_spec (Z.to_nat d) 0); [lia|reflexivity].
Qed.

Lemma has_point_signed_digits (s : bool) (digits : string) :
  Spec.all_digits digits = true ->
  Spec.has_point ((if s then "-" else EmptyString) +++ digits) = false.
Proof.
  intros H. unfold Spec.has_point.
  now rewrite Digits.fraction_signed, Digits.fraction_digits.
Qed.

End Fixed.

(** ** toPathData: the format of the numbers *)

Module Format.

Lemma traverse_map {A B : Type} (f : A -> completion B) (g : A -> B) (l : list A) :
  (forall a, In a l -> f a = Normal (g a)) ->
  Spec.traverse f l = Normal (map g l).
Proof.
  induction l as [|a l IH]; intros H; cbn [Spec.traverse map]; [reflexivity|].
  rewrite (H a (or_introl eq_refl)), IH by (intros; apply H; now right).
  reflexivity.
Qed.

Lemma traverse_normal {A B : Type} (f : A -> completion B) (l : list A)
  (bs : list B) :
  Spec.traverse f l = Normal bs ->
  forall a, In a l -> exists b, f a = Normal b.
Proof.
  revert bs. induction l as [|a l IH]; intros bs H a' Hin; [destruct Hin|].
  cbn [Spec.traverse] in H.
  destruct (f a) as [b|e] eqn:Hb; cbn [bind] in H; [|discriminate H].
  destruct (Spec.traverse f l) as [bs'|e] eqn:Hbs; cbn [bind] in H;
    [|discriminate H].
  destruct Hin as [<-|Hin]; [now exists b|].
  now apply (IH bs').
Qed.

(** A whole coordinate below [1e21] is printed without a point, whatever
    the number of decimal places. *)
Lemma floatToString_of_whole (d : Z) (v : float) :
  is_integral v = true ->
  (abs v <? 1e21)%float = true ->
  exists text,
    Path.floatToString d v = Normal text /\ Spec.has_point text = false.
Proof.
  intros Hint Hlt. unfold Path.floatToString.
  rewrite (Doubles.round_test_integral v Hint),
    (Doubles.round_of_integral v Hint).
  destruct (Whole.toString_of_whole v Hint Hlt) as (s & digits & -> & Hdigits).
  eexists. split; [reflexivity|].
  now apply Fixed.has_point_signed_digits.
Qed.

(** A finite coordinate that is not whole goes to [toFixed]. *)
Lemma floatToString_of_fraction (d : Z) (v : float) :
  is_integral v = false ->
  is_finite v = true ->
  (0 <= d <= 100)%Z ->
  exists text,
    Path.floatToString d v = Normal text
    /\ Spec.fixed_to (Z.to_nat d) text = true.
Proof.
  intros Hint Hfin Hd. unfold Path.floatToString.
  unfold is_integral in Hint. unfold is_finite, is_nan, is_infinity in Hfin.
  rewrite !eqb_spec, abs_spec in Hfin.
  change (Prim2SF infinity) with (S754_infinity false) in Hfin.
  destruct (Prim2SF v) as [s|s| |s m e] eqn:Hv;
    [discriminate Hint|destruct s; discriminate Hfin|discriminate Hfin|].
  rewrite (Doubles.round_test_fractional v s m e Hv Hint).
  exact (Fixed.toFixed_of_fraction v d s m e Hv Hint Hd).
Qed.

(** C6, as the code has it.  [toPathData] returns whenever
    [decimalPlaces] (2 when left out) is an integer from 0 to 100, and
    what it returns is the commands end to end, each as its letter and the
    packed renderings of its coordinates.  Of these renderings, that of a
    coordinate that is a whole number below [1e21] in magnitude has no
    point, whatever [decimalPlaces] and the other coordinates are, and that
    of a finite coordinate that is not a whole number has exactly
    [decimalPlaces] digits after the point (and no point when
    [decimalPlaces] is 0) for [decimalPlaces] from 0 to 100. *)
Theorem toPathData_formats_coordinates
  (this : Path.Path) (decimalPlaces : option Z) :
  let d := or_default decimalPlaces 2%Z in
  exists render : float -> string,
    (forall text,
       Path.toPathData this decimalPlaces = Normal text ->
       text
       = Spec.join
           (map (fun cmd =>
                   Cmd.type cmd
                   +++ Spec.packed (Spec.coordinates cmd)
                         (map render (Spec.coordinates cmd)))
              (Path.commands this)))
    /\ ((0 <= d <= 100)%Z ->
        exists text, Path.toPathData this decimalPlaces = Normal text)
    /\ forall cmd v,
         In cmd (Path.commands this) -> In v (Spec.coordinates cmd) ->
         (is_integral v = true ->
          (abs v <? 1e21)%float = true ->
          Path.floatToString d v = Normal (render v)
          /\ Spec.has_point (render v) = false)
         /\ (is_integral v = false ->
             is_finite v = true ->
             (0 <= d <= 100)%Z ->
             Path.floatToString d v = Normal (render v)
             /\ Spec.fixed_to (Z.to_nat d) (render v) = true).
Proof.
  intros d. exists (Spec.rendered d).
  assert (Hrendered : forall v text,
             Path.floatToString d v = Normal text -> Spec.rendered d v = text).
  { intros v text H. unfold Spec.rendered. now rewrite H. }
  assert (Hjoin : (forall cmd v,
                     In cmd (Path.commands this) ->
                     In v (Spec.coordinates cmd) ->
                     exists text, Path.floatToString d v = Normal text) ->
                  Path.toPathData this decimalPlaces
                  = Normal
                      (Spec.join
                         (map (fun cmd =>
                                 Cmd.type cmd
                                 +++ Spec.packed (Spec.coordinates cmd)
                                       (map (Spec.rendered d)
                                          (Spec.coordinates cmd)))
                            (Path.commands this)))).
  { intros Hall. unfold Path.toPathData. fold d. rewrite Layout.loop_join.
    rewrite (traverse_map (Layout.command_text d)
               (fun cmd => Cmd.type cmd
                           +++ Spec.packed (Spec.coordinates cmd)
                                 (map (Spec.rendered d) (Spec.coordinates cmd)))).
    - reflexivity.
    - intros cmd Hcmd. unfold Layout.command_text.
      rewrite (traverse_map (Path.floatToString d) (Spec.rendered d)).
      + reflexivity.
      + intros v Hv. destruct (Hall cmd v Hcmd Hv) as [text Htext].
        now rewrite (Hrendered v text Htext). }
  split; [|split].
  - intros text Htext.
    assert (Hall : forall cmd v,
               In cmd (Path.commands this) -> In v (Spec.coordinates cmd) ->
               exists text, Path.floatToString d v = Normal text).
    { intros cmd v Hcmd Hv.
      unfold Path.toPathData in Htext. fold d in Htext.
      rewrite Layout.loop_join in Htext.
      destruct (Spec.traverse (Layout.command_text d) (Path.commands this))
        as [texts|e] eqn:Htexts; cbn [bind] in Htext; [|discriminate Htext].
      destruct (traverse_normal _ _ _ Htexts cmd Hcmd) as [t Ht].
      unfold Layout.command_text in Ht.
      destruct (Spec.traverse (Path.floatToString d) (Spec.coordinates cmd))
        as [vs|e] eqn:Hvs; cbn [bind] in Ht; [|discriminate Ht].
      exact (traverse_normal _ _ _ Hvs v Hv). }
    rewrite (Hjoin Hall) in Htext.
    apply (f_equal (fun c => match c with
                             | Normal t => t
                             | Throw _ => text
                             end)) in Htext.
    symmetry. exact Htext.
  - intros Hd. eexists. apply Hjoin.
    intros cmd v _ _. now apply Layout.floatToString_returns.
  - intros cmd v _ _. split.
    + intros Hint Hlt.
      destruct (floatToString_of_whole d v Hint Hlt) as (text & Htext & Hformat).
      rewrite (Hrendered v text Htext). now split.
    + intros Hint Hfin Hd.
      destruct (floatToString_of_fraction d v Hint Hfin Hd)
        as (text & Htext & Hformat).
      rewrite (Hrendered v text Htext). now split.
Qed.

(** The path M 0.5,-3 L 10,2.25 with two decimal places; and the path
    M 1e22,0.5, where 0.5 is printed with two decimals next to a
    coordinate that is printed in exponent notation. *)
Lemma toPathData_formats_coordinates_witness :
  Path.toPathData (Examples.with_commands [MoveTo 0.5 (-3); LineTo 10 2.25]) None
  = Normal "M0.50-3L10 2.25"
  /\ exists large : string,
       Path.toPathData (Examples.with_commands [MoveTo 1e22 0.5]) None
       = Normal ("M" +++ large +++ " 0.50").
Proof.
  assert (Hsame : forall (v : float) (a b : string),
             Path.floatToString 2 v = Normal a ->
             Path.floatToString 2 v = Normal b -> b = a).
  { intros v a b Ha Hb. rewrite Ha in Hb.
    apply (f_equal (fun c => match c with
                             | Normal t => t
                             | Throw _ => a
                             end)) in Hb.
    symmetry. exact Hb. }
  split.
  - destruct (toPathData_formats_coordinates
                (Examples.with_commands [MoveTo 0.5 (-3); LineTo 10 2.25]) None)
      as (render & Htext & Hreturns & Hrender).
    destruct Hreturns as [text Hreturned]; [cbn; lia|].
    rewrite Hreturned. f_equal. rewrite (Htext text Hreturned).
    cbn [map Examples.with_commands Path.commands Spec.coordinates Cmd.type].
    destruct (Hrender (MoveTo 0.5 (-3)) 0.5%float) as [_ H1];
      [now left|now left|].
    destruct (Hrender (MoveTo 0.5 (-3)) (-3)%float) as [H2 _];
      [now left|right; now left|].
    destruct (Hrender (LineTo 10 2.25) 10%float) as [H3 _];
      [right; now left|now left|].
    destruct (Hrender (LineTo 10 2.25) 2.25%float) as [_ H4];
      [right; now left|right; now left|].
    destruct (H1 eq_refl eq_refl ltac:(cbn; lia)) as [H1' _].
    destruct (H2 eq_refl eq_refl) as [H2' _].
    destruct (H3 eq_refl eq_refl) as [H3' _].
    destruct (H4 eq_refl eq_refl ltac:(cbn; lia)) as [H4' _].
    rewrite (Hsame 0.5%float "0.50" _ eq_refl H1'),
      (Hsame (-3)%float "-3" _ eq_refl H2'),
      (Hsame 10%float "10" _ eq_refl H3'),
      (Hsame 2.25%float "2.25" _ eq_refl H4').
    reflexivity.
  - destruct (toPathData_formats_coordinates
                (Examples.with_commands [MoveTo 1e22 0.5]) None)
      as (render & Htext & Hreturns & Hrender).
    destruct Hreturns as [text Hreturned]; [cbn; lia|].
    exists (render 1e22%float).
    rewrite Hreturned. f_equal. rewrite (Htext text Hreturned).
    cbn [map Examples.with_commands Path.commands Spec.coordinates Cmd.type].
    destruct (Hrender (MoveTo 1e22 0.5) 0.5%float) as [_ H1];
      [now left|right; now left|].
    destruct (H1 eq_refl eq_refl ltac:(cbn; lia)) as [H1' _].
    rewrite (Hsame 0.5%float "0.50" _ eq_refl H1').
    cbn. now rewrite Strings.append_nil_r.
Defined.

(** The claim's two rules fail outside that range: the whole number
    [1.5e21] prints with a point; [NaN] and [Infinity], which are not whole
    numbers, print without two decimals; and with 101 decimal places a
    coordinate that is not whole stops the call with a [RangeError]. *)
Lemma toPathData_other_renderings :
  (Path.toPathData (Examples.with_commands [MoveTo 1.5e21 0]) None = Normal "M1.5e+21 0"
   /\ is_integral 1.5e21 = true
   /\ Path.floatToString 2 1.5e21 = Normal "1.5e+21"
   /\ Spec.has_point "1.5e+21" = true)
  /\ (Path.toPathData (Examples.with_commands [MoveTo nan infinity]) None
      = Normal "MNaN Infinity"
      /\ is_integral nan = false /\ Spec.fixed_to 2 "NaN" = false
      /\ is_integral infinity = false /\ Spec.fixed_to 2 "Infinity" = false)
  /\ Path.toPathData (Examples.with_commands [MoveTo 0.5 0]) (Some 101%Z)
     = Throw (RangeError "toFixed() digits argument must be between 0 and 100").
Proof. vm_compute. repeat split. Qed.

End Format.

(** ** toSVG *)

Module ToSVG.

Lemma nan_reads_as_zero (v : float) : is_nan v = true -> ToInt32 v = 0%Z.
Proof.
  intros H. unfold ToInt32.
  destruct (Prim2SF v) as [s|s| |s m e] eqn:Hv; try reflexivity.
  rewrite Doubles.prim_not_nan in H; [discriminate|].
  rewrite Hv. discriminate.
Qed.

(** C2, on the code.  For a path without commands nor stroke, [toSVG]
    returns [<path d=""/>] when [fill] is [null], and also when [fill] is
    ['red'] (a string that reads as [NaN]): in both cases without any
    [fill] attribute, as for the default ['black']. *)
Theorem toSVG_writes_no_fill (StringToNumber : string -> float) :
  Path.toSVG StringToNumber (Examples.with_fill None) None
  = Normal ("<path d=" +++ dquote +++ dquote +++ "/>")
  /\ (is_nan (StringToNumber "red") = true ->
      Path.toSVG StringToNumber (Examples.with_fill (Some "red")) None
      = Normal ("<path d=" +++ dquote +++ dquote +++ "/>"))
  /\ Path.toSVG StringToNumber (Examples.with_fill (Some "black")) None
     = Normal ("<path d=" +++ dquote +++ dquote +++ "/>").
Proof.
  split; [|split].
  - reflexivity.
  - intros Hnan. unfold Path.toSVG, Path.fill_condition.
    cbn [Path.fill Examples.with_fill]. rewrite (nan_reads_as_zero _ Hnan).
    reflexivity.
  - unfold Path.toSVG, Path.fill_condition.
    cbn [Path.fill Examples.with_fill String.eqb Ascii.eqb Bool.eqb].
    rewrite Z.land_0_r. reflexivity.
Qed.

Lemma toSVG_writes_no_fill_witness :
  Path.toSVG (fun _ => nan) (Examples.with_fill (Some "red")) None
  = Normal ("<path d=" +++ dquote +++ dquote +++ "/>").
Proof.
  exact (proj1 (proj2 (toSVG_writes_no_fill (fun _ => nan))) eq_refl).
Defined.

End ToSVG.

(** ** The order of doubles *)

Module Order.

Open Scope Z_scope.

Lemma finite_rank (v : float) (s : bool) (m : positive) (e : Z) :
  Prim2SF v = S754_finite s m e ->
  0 < Zpos m * 2 ^ (e + 1074) < 2 ^ 2200.
Proof.
  intros Hv. destruct (Doubles.finite_bounds v s m e Hv) as (Hm & He & _).
  assert (0 < 2 ^ (e + 1074)) by (apply Z.pow_pos_nonneg; lia).
  split; [lia|].
  assert (2 ^ (e + 1074) <= 2 ^ 2045) by (apply Z.pow_le_mono_r; lia).
  assert (Zpos m * 2 ^ (e + 1074) < 2 ^ 53 * 2 ^ 2045) by nia.
  replace (2 ^ 53 * 2 ^ 2045) with (2 ^ 2098) in *
    by (rewrite <- Z.pow_add_r by lia; reflexivity).
  assert (2 ^ 2098 < 2 ^ 2200) by (apply Z.pow_lt_mono_r; lia).
  lia.
Qed.

Lemma finite_rank_lt (v w : float) (s s' : bool) (m m' : positive) (e e' : Z) :
  Prim2SF v = S754_finite s m e ->
  Prim2SF w = S754_finite s' m' e' ->
  e < e' ->
  Zpos m * 2 ^ (e + 1074) < Zpos m' * 2 ^ (e' + 1074).
Proof.
  intros Hv Hw Hlt.
  destruct (Doubles.finite_bounds v s m e Hv) as (Hm & He & _).
  destruct (Doubles.finite_bounds w s' m' e' Hw) as (_ & _ & [Hm'|He']); [|lia].
  assert (Hp : 0 < 2 ^ (e + 1074)) by (apply Z.pow_pos_nonneg; lia).
  replace (e' + 1074) with ((e' - e) + (e + 1074)) by lia.
  rewrite (Z.pow_add_r 2 (e' - e) (e + 1074)) by lia.
  assert (2 ^ 1 <= 2 ^ (e' - e)) by (apply Z.pow_le_mono_r; lia).
  change (2 ^ 1) with 2 in *. change (2 ^ 53) with (2 * 2 ^ 52) in Hm.
  assert (Hmm : Zpos m < Zpos m' * 2 ^ (e' - e)).
  { apply Z.lt_le_trans with (2 * Zpos m'); [lia|].
    rewrite (Z.mul_comm 2). apply Z.mul_le_mono_nonneg_l; lia. }
  rewrite Z.mul_assoc. apply Z.mul_lt_mono_pos_r; assumption.
Qed.

(** Comparing two doubles that are not [NaN] is comparing their ranks. *)
Lemma compare_rank (v w : float) :
  is_nan v = false -> is_nan w = false ->
  SFcompare (Prim2SF v) (Prim2SF w) = Some (Spec.rank v ?= Spec.rank w).
Proof.
  intros Hv Hw.
  assert (Hnan : forall u, is_nan u = false -> Prim2SF u <> S754_nan).
  { intros u Hu E. unfold is_nan in Hu. rewrite eqb_spec, E in Hu.
    discriminate. }
  apply Hnan in Hv, Hw. unfold Spec.rank.
  assert (HK : 0 < 2 ^ 2200) by (apply Z.pow_pos_nonneg; lia).
  destruct (Prim2SF v) as [s|s| |s m e] eqn:Ev; [| |congruence|];
    destruct (Prim2SF w) as [s'|s'| |s' m' e'] eqn:Ew; try congruence;
    try pose proof (finite_rank v s m e Ev) as Hr;
    try pose proof (finite_rank w s' m' e' Ew) as Hr';
    cbn [SFcompare]; f_equal; symmetry;
    try solve [repeat match goal with
                      | |- context [if ?b then _ else _] => destruct b
                      end;
               first [ apply Z.compare_refl
                     | apply Z.compare_lt_iff; lia
                     | apply Z.compare_gt_iff; lia ]].
  - rewrite Pos.compare_cont_spec. cbn [Pos.switch_Eq].
    destruct s, s'.
    + destruct (Z.compare_spec e e') as [->|Hlt|Hlt].
      * destruct (Pos.compare_spec m m') as [->|Hm|Hm]; cbn [CompOpp].
        -- apply Z.compare_refl.
        -- apply Z.compare_gt_iff.
           assert (0 < 2 ^ (e' + 1074)) by (apply Z.pow_pos_nonneg;
             destruct (Doubles.finite_bounds w _ _ _ Ew) as (_ & ? & _); lia).
           nia.
        -- apply Z.compare_lt_iff.
           assert (0 < 2 ^ (e' + 1074)) by (apply Z.pow_pos_nonneg;
             destruct (Doubles.finite_bounds w _ _ _ Ew) as (_ & ? & _); lia).
           nia.
      * apply Z.compare_gt_iff.
        pose proof (finite_rank_lt v w _ _ _ _ _ _ Ev Ew Hlt). lia.
      * apply Z.compare_lt_iff.
        pose proof (finite_rank_lt w v _ _ _ _ _ _ Ew Ev Hlt). lia.
    + apply Z.compare_lt_iff. lia.
    + apply Z.compare_gt_iff. lia.
    + destruct (Z.compare_spec e e') as [->|Hlt|Hlt].
      * destruct (Pos.compare_spec m m') as [->|Hm|Hm].
        -- apply Z.compare_refl.
        -- apply Z.compare_lt_iff.
           assert (0 < 2 ^ (e' + 1074)) by (apply Z.pow_pos_nonneg;
             destruct (Doubles.finite_bounds w _ _ _ Ew) as (_ & ? & _); lia).
           nia.
        -- apply Z.compare_gt_iff.
           assert (0 < 2 ^ (e' + 1074)) by (apply Z.pow_pos_nonneg;
             destruct (Doubles.finite_bounds w _ _ _ Ew) as (_ & ? & _); lia).
           nia.
      * apply Z.compare_lt_iff.
        pose proof (finite_rank_lt v w _ _ _ _ _ _ Ev Ew Hlt). lia.
      * apply Z.compare_gt_iff.
        pose proof (finite_rank_lt w v _ _ _ _ _ _ Ew Ev Hlt). lia.
Qed.

Lemma leb_rank (v w : float) :
  is_nan v = false -> is_nan w = false ->
  (v <=? w)%float = (Spec.rank v <=? Spec.rank w).
Proof.
  intros Hv Hw. rewrite leb_spec. unfold SFleb.
  rewrite (compare_rank v w Hv Hw). unfold Z.leb.
  now destruct (Spec.rank v ?= Spec.rank w).
Qed.

Lemma ltb_rank (v w : float) :
  is_nan v = false -> is_nan w = false ->
  (v <? w)%float = (Spec.rank v <? Spec.rank w).
Proof.
  intros Hv Hw. rewrite ltb_spec. unfold SFltb.
  rewrite (compare_rank v w Hv Hw). unfold Z.ltb.
  now destruct (Spec.rank v ?= Spec.rank w).
Qed.

End Order.

(** ** The reductions of Math.min and Math.max *)

Module Extremes.

Open Scope Z_scope.

Lemma zero_rank (v : float) : is_zero v = true -> Spec.rank v = 0.
Proof.
  unfold is_zero, Spec.rank. rewrite eqb_spec.
  change (Prim2SF zero) with (S754_zero false).
  destruct (Prim2SF v) as [s|s| |s m e]; try reflexivity; destruct s; discriminate.
Qed.

Lemma infinity_rank (v : float) :
  Spec.number v -> 2 ^ 2200 <= Spec.rank v -> v = infinity.
Proof.
  intros Hv Hr. apply Prim2SF_inj.
  change (Prim2SF infinity) with (S754_infinity false).
  assert (HK : 0 < 2 ^ 2200) by (apply Z.pow_pos_nonneg; lia).
  unfold Spec.rank in Hr.
  destruct (Prim2SF v) as [s|s| |s m e] eqn:Ev; try lia.
  - destruct s; [lia|reflexivity].
  - pose proof (Order.finite_rank v s m e Ev). destruct s; lia.
Qed.

Lemma neg_infinity_rank (v : float) :
  Spec.number v -> Spec.rank v <= - 2 ^ 2200 -> v = neg_infinity.
Proof.
  intros Hv Hr. apply Prim2SF_inj.
  change (Prim2SF neg_infinity) with (S754_infinity true).
  assert (HK : 0 < 2 ^ 2200) by (apply Z.pow_pos_nonneg; lia).
  unfold Spec.rank in Hr.
  destruct (Prim2SF v) as [s|s| |s m e] eqn:Ev; try lia.
  - destruct s; [reflexivity|lia].
  - pose proof (Order.finite_rank v s m e Ev). destruct s; lia.
Qed.

Lemma min_from_least (l : list float) (lowest : float) :
  Forall Spec.number l -> Spec.number lowest ->
  let r := min_from lowest l in
  Spec.number r /\ (r = lowest \/ In r l)
  /\ Spec.rank r <= Spec.rank lowest
  /\ Forall (fun x => Spec.rank r <= Spec.rank x) l.
Proof.
  intros Hl. revert lowest.
  induction Hl as [|x l Hx Hl IH]; intros lowest Hlow; cbn [min_from].
  - repeat split; [exact Hlow|now left|lia|constructor].
  - unfold Spec.number in Hx. rewrite Hx.
    destruct (is_neg_zero x && is_pos_zero lowest) eqn:Hz.
    + apply andb_true_iff in Hz as [Hzx Hzl].
      apply andb_true_iff in Hzx as [Hzx _].
      apply andb_true_iff in Hzl as [Hzl _].
      apply zero_rank in Hzx, Hzl.
      destruct (IH x Hx) as (Hn & Hin & Hle & Hall).
      repeat split; [exact Hn|cbn [In]; intuition auto|lia|].
      constructor; [exact Hle|exact Hall].
    + destruct (x <? lowest)%float eqn:Hlt;
        rewrite (Order.ltb_rank x lowest Hx Hlow) in Hlt.
      * apply Z.ltb_lt in Hlt.
        destruct (IH x Hx) as (Hn & Hin & Hle & Hall).
        repeat split; [exact Hn|cbn [In]; intuition auto|lia|].
        constructor; [exact Hle|exact Hall].
      * apply Z.ltb_ge in Hlt.
        destruct (IH lowest Hlow) as (Hn & Hin & Hle & Hall).
        repeat split; [exact Hn|cbn [In]; intuition auto|lia|].
        constructor; [lia|exact Hall].
Qed.

Lemma max_from_greatest (l : list float) (highest : float) :
  Forall Spec.number l -> Spec.number highest ->
  let r := max_from highest l in
  Spec.number r /\ (r = highest \/ In r l)
  /\ Spec.rank highest <= Spec.rank r
  /\ Forall (fun x => Spec.rank x <= Spec.rank r) l.
Proof.
  intros Hl. revert highest.
  induction Hl as [|x l Hx Hl IH]; intros highest Hhigh; cbn [max_from].
  - repeat split; [exact Hhigh|now left|lia|constructor].
  - unfold Spec.number in Hx. rewrite Hx.
    destruct (is_pos_zero x && is_neg_zero highest) eqn:Hz.
    + apply andb_true_iff in Hz as [Hzx Hzl].
      apply andb_true_iff in Hzx as [Hzx _].
      apply andb_true_iff in Hzl as [Hzl _].
      apply zero_rank in Hzx, Hzl.
      destruct (IH x Hx) as (Hn & Hin & Hle & Hall).
      repeat split; [exact Hn|cbn [In]; intuition auto|lia|].
      constructor; [exact Hle|exact Hall].
    + destruct (highest <? x)%float eqn:Hlt;
        rewrite (Order.ltb_rank highest x Hhigh Hx) in Hlt.
      * apply Z.ltb_lt in Hlt.
        destruct (IH x Hx) as (Hn & Hin & Hle & Hall).
        repeat split; [exact Hn|cbn [In]; intuition auto|lia|].
        constructor; [exact Hle|exact Hall].
      * apply Z.ltb_ge in Hlt.
        destruct (IH highest Hhigh) as (Hn & Hin & Hle & Hall).
        repeat split; [exact Hn|cbn [In]; intuition auto|lia|].
        constructor; [lia|exact Hall].
Qed.

(** [Math.min] of numbers, at least one, is one of them and is not above
    any of them. *)
Lemma Math_min_least (l : list float) :
  Forall Spec.number l -> l <> [] ->
  Spec.number (Math_min l) /\ In (Math_min l) l
  /\ forall x, In x l -> (Math_min l <=? x)%float = true.
Proof.
  intros Hl Hne. unfold Math_min.
  destruct (min_from_least l infinity Hl eq_refl) as (Hn & Hin & _ & Hall).
  split; [exact Hn|]. rewrite Forall_forall in Hall, Hl. split.
  - destruct Hin as [Hinf|Hin]; [|exact Hin].
    destruct l as [|x l]; [congruence|].
    specialize (Hall x (or_introl eq_refl)). rewrite Hinf in *.
    rewrite (infinity_rank x (Hl x (or_introl eq_refl))); [now left|].
    exact Hall.
  - intros x Hx. rewrite (Order.leb_rank _ _ Hn (Hl x Hx)).
    apply Z.leb_le. now apply Hall.
Qed.

Lemma Math_max_greatest (l : list float) :
  Forall Spec.number l -> l <> [] ->
  Spec.number (Math_max l) /\ In (Math_max l) l
  /\ forall x, In x l -> (x <=? Math_max l)%float = true.
Proof.
  intros Hl Hne. unfold Math_max.
  destruct (max_from_greatest l neg_infinity Hl eq_refl) as (Hn & Hin & _ & Hall).
  split; [exact Hn|]. rewrite Forall_forall in Hall, Hl. split.
  - destruct Hin as [Hinf|Hin]; [|exact Hin].
    destruct l as [|x l]; [congruence|].
    specialize (Hall x (or_introl eq_refl)). rewrite Hinf in *.
    rewrite (neg_infinity_rank x (Hl x (or_introl eq_refl))); [now left|].
    exact Hall.
  - intros x Hx. rewrite (Order.leb_rank _ _ (Hl x Hx) Hn).
    apply Z.leb_le. now apply Hall.
Qed.

Lemma min_from_NaN (l : list float) (lowest : float) :
  Exists (fun x => is_nan x = true) l -> min_from lowest l = nan.
Proof.
  intros Hl. revert lowest.
  induction Hl as [x l Hx|x l Hl IH]; intros lowest; cbn [min_from].
  - now rewrite Hx.
  - destruct (is_nan x); [reflexivity|].
    destruct (_ && _); [apply IH|]. destruct (_ <? _)%float; apply IH.
Qed.

Lemma max_from_NaN (l : list float) (highest : float) :
  Exists (fun x => is_nan x = true) l -> max_from highest l = nan.
Proof.
  intros Hl. revert highest.
  induction Hl as [x l Hx|x l Hl IH]; intros highest; cbn [max_from].
  - now rewrite Hx.
  - destruct (is_nan x); [reflexivity|].
    destruct (_ && _); [apply IH|]. destruct (_ <? _)%float; apply IH.
Qed.

Lemma sub_NaN (a : float) : (a - nan)%float = nan.
Proof.
  apply Prim2SF_inj. rewrite sub_spec.
  change (Prim2SF nan) with S754_nan.
  now destruct (Prim2SF a) as [s|s| |s m e].
Qed.

Lemma rank_zero (v : float) :
  Spec.number v -> Spec.rank v = 0 -> is_zero v = true.
Proof.
  intros Hv Hr. unfold is_zero. rewrite eqb_spec.
  change (Prim2SF zero) with (S754_zero false).
  unfold Spec.rank in Hr.
  assert (HK : 0 < 2 ^ 2200) by (apply Z.pow_pos_nonneg; lia).
  destruct (Prim2SF v) as [s|s| |s m e] eqn:Ev.
  - reflexivity.
  - destruct s; lia.
  - unfold Spec.number, is_nan in Hv. rewrite eqb_spec, Ev in Hv. discriminate.
  - pose proof (Order.finite_rank v s m e Ev). destruct s; lia.
Qed.

Lemma pos_zero_rank (v : float) : is_pos_zero v = true -> Spec.rank v = 0.
Proof.
  intros H. apply zero_rank. unfold is_pos_zero in H.
  now apply andb_true_iff in H.
Qed.

Lemma neg_zero_rank (v : float) : is_neg_zero v = true -> Spec.rank v = 0.
Proof.
  intros H. apply zero_rank. unfold is_neg_zero in H.
  now apply andb_true_iff in H.
Qed.

Lemma zero_signs (v : float) :
  is_zero v = true -> is_neg_zero v = negb (is_pos_zero v).
Proof.
  intros H. unfold is_neg_zero, is_pos_zero. rewrite H.
  now destruct (get_sign v).
Qed.

(** [Math.min] gives [+0] only when no argument is [-0]. *)
Lemma min_from_signed (l : list float) (lowest : float) :
  Forall Spec.number l -> Spec.number lowest ->
  is_pos_zero (min_from lowest l) = true ->
  is_neg_zero lowest = false /\ Forall (fun x => is_neg_zero x = false) l.
Proof.
  intros Hl. revert lowest.
  induction Hl as [|x l Hx Hl IH]; intros lowest Hlow; cbn [min_from].
  - intros H. split; [|constructor].
    pose proof H as Hz. unfold is_pos_zero in Hz.
    apply andb_true_iff in Hz as [Hz _].
    rewrite (zero_signs lowest Hz), H. reflexivity.
  - pose proof Hx as Hx'. unfold Spec.number in Hx'. rewrite Hx'.
    destruct (is_neg_zero x && is_pos_zero lowest) eqn:Hz.
    + intros H. destruct (IH x Hx H) as [Hneg _].
      apply andb_true_iff in Hz as [Hzx _]. congruence.
    + destruct (x <? lowest)%float eqn:Hlt;
        rewrite (Order.ltb_rank x lowest Hx Hlow) in Hlt; intros H.
      * apply Z.ltb_lt in Hlt.
        destruct (IH x Hx H) as [Hneg Hall].
        destruct (min_from_least l x Hl Hx) as (_ & _ & Hle & _).
        pose proof (pos_zero_rank _ H) as Hr.
        split; [|constructor; assumption].
        destruct (is_neg_zero lowest) eqn:Hnl; [|reflexivity].
        apply neg_zero_rank in Hnl. lia.
      * apply Z.ltb_ge in Hlt.
        destruct (IH lowest Hlow H) as [Hneg Hall].
        destruct (min_from_least l lowest Hl Hlow) as (_ & _ & Hle & _).
        pose proof (pos_zero_rank _ H) as Hr.
        split; [exact Hneg|]. constructor; [|exact Hall].
        destruct (is_neg_zero x) eqn:Hnx; [|reflexivity].
        exfalso.
        pose proof (neg_zero_rank x Hnx) as Hrx.
        assert (Hzl : is_zero lowest = true) by (apply rank_zero; [exact Hlow|lia]).
        pose proof (zero_signs lowest Hzl) as Hs. rewrite Hneg in Hs.
        destruct (is_pos_zero lowest); [discriminate Hz|discriminate Hs].
Qed.

(** [Math.max] gives [-0] only when no argument is [+0]. *)
Lemma max_from_signed (l : list float) (highest : float) :
  Forall Spec.number l -> Spec.number highest ->
  is_neg_zero (max_from highest l) = true ->
  is_pos_zero highest = false /\ Forall (fun x => is_pos_zero x = false) l.
Proof.
  intros Hl. revert highest.
  induction Hl as [|x l Hx Hl IH]; intros highest Hhigh; cbn [max_from].
  - intros H. split; [|constructor].
    pose proof H as Hz. unfold is_neg_zero in Hz.
    apply andb_true_iff in Hz as [Hz _].
    pose proof (zero_signs highest Hz) as Hs. rewrite H in Hs.
    destruct (is_pos_zero highest); [discriminate Hs|reflexivity].
  - pose proof Hx as Hx'. unfold Spec.number in Hx'. rewrite Hx'.
    destruct (is_pos_zero x && is_neg_zero highest) eqn:Hz.
    + intros H. destruct (IH x Hx H) as [Hpos _].
      apply andb_true_iff in Hz as [Hzx _]. congruence.
    + destruct (highest <? x)%float eqn:Hlt;
        rewrite (Order.ltb_rank highest x Hhigh Hx) in Hlt; intros H.
      * apply Z.ltb_lt in Hlt.
        destruct (IH x Hx H) as [Hpos Hall].
        destruct (max_from_greatest l x Hl Hx) as (_ & _ & Hle & _).
        pose proof (neg_zero_rank _ H) as Hr.
        split; [|constructor; assumption].
        destruct (is_pos_zero highest) eqn:Hnl; [|reflexivity].
        apply pos_zero_rank in Hnl. lia.
      * apply Z.ltb_ge in Hlt.
        destruct (IH highest Hhigh H) as [Hpos Hall].
        destruct (max_from_greatest l highest Hl Hhigh) as (_ & _ & Hle & _).
        pose proof (neg_zero_rank _ H) as Hr.
        split; [exact Hpos|]. constructor; [|exact Hall].
        destruct (is_pos_zero x) eqn:Hnx; [|reflexivity].
        exfalso.
        pose proof (pos_zero_rank x Hnx) as Hrx.
        assert (Hzl : is_zero highest = true) by (apply rank_zero; [exact Hhigh|lia]).
        pose proof (zero_signs highest Hzl) as Hs. rewrite Hpos in Hs.
        destruct (is_neg_zero highest); [discriminate Hz|discriminate Hs].
Qed.

Lemma numbers_of (l : list float) :
  existsb is_nan l = false -> Forall Spec.number l.
Proof.
  induction l as [|x l IH]; cbn [existsb]; intros H; constructor;
    apply orb_false_iff in H as [Hx Hl]; [exact Hx|now apply IH].
Qed.

Lemma NaN_of (l : list float) :
  existsb is_nan l = true -> Exists (fun x => is_nan x = true) l.
Proof.
  intros H. apply existsb_exists in H. apply Exists_exists. exact H.
Qed.

(** [Math.min] is the minimum in the spec's words. *)
Lemma Math_min_is_minimum (l : list float) : Spec.minimum_of l (Math_min l).
Proof.
  unfold Spec.minimum_of.
  destruct (existsb is_nan l) eqn:Hnan.
  - unfold Math_min. rewrite (min_from_NaN l infinity (NaN_of l Hnan)).
    reflexivity.
  - destruct l as [|x l]; [reflexivity|].
    pose proof (numbers_of _ Hnan) as Hl.
    destruct (Math_min_least (x :: l) Hl ltac:(discriminate)) as (_ & Hin & Hle).
    split; [exact Hin|]. split; [exact Hle|].
    intros y Hy Hneg.
    destruct (is_pos_zero (Math_min (x :: l))) eqn:Hp; [|reflexivity].
    destruct (min_from_signed (x :: l) infinity Hl eq_refl Hp) as [_ Hall].
    rewrite Forall_forall in Hall. rewrite (Hall y Hy) in Hneg.
    discriminate Hneg.
Qed.

(** [Math.max] is the maximum in the spec's words. *)
Lemma Math_max_is_maximum (l : list float) : Spec.maximum_of l (Math_max l).
Proof.
  unfold Spec.maximum_of.
  destruct (existsb is_nan l) eqn:Hnan.
  - unfold Math_max. rewrite (max_from_NaN l neg_infinity (NaN_of l Hnan)).
    reflexivity.
  - destruct l as [|x l]; [reflexivity|].
    pose proof (numbers_of _ Hnan) as Hl.
    destruct (Math_max_greatest (x :: l) Hl ltac:(discriminate))
      as (_ & Hin & Hle).
    split; [exact Hin|]. split; [exact Hle|].
    intros y Hy Hpos.
    destruct (is_neg_zero (Math_max (x :: l))) eqn:Hp; [|reflexivity].
    destruct (max_from_signed (x :: l) neg_infinity Hl eq_refl Hp) as [_ Hall].
    rewrite Forall_forall in Hall. rewrite (Hall y Hy) in Hpos.
    discriminate Hpos.
Qed.

End Extremes.

(** ** getMetrics: the box and the bearings *)

Module Reductions.

(** C3.  For a glyph with a stored path, [getMetrics] collects the
    endpoint of every command that is not Close, then [x1, y1] of Quad and
    Cubic commands, then [x2, y2] of Cubic commands.  [xMin] and [yMin]
    are the minimum, [xMax] and [yMax] the maximum of the collected x's
    and y's: [NaN] when one of them is [NaN]; otherwise the infinity of no
    value when nothing was collected, and else a collected value that no
    collected value is below (above), [-0] counting as below [+0].
    [leftSideBearing] is 0 and [rightSideBearing] is
    [advanceWidth - leftSideBearing - (xMax - xMin)]. *)
Theorem getMetrics_reduces_collected (g : Glyph.Glyph) (stored : Path.Path) :
  Glyph.path g = Some stored ->
  let xs := Spec.collected_x (Path.commands stored) in
  let ys := Spec.collected_y (Path.commands stored) in
  exists m : Glyph.Metrics.Metrics,
    Glyph.getMetrics g = Normal m
    /\ Spec.minimum_of xs (Glyph.Metrics.xMin m)
    /\ Spec.minimum_of ys (Glyph.Metrics.yMin m)
    /\ Spec.maximum_of xs (Glyph.Metrics.xMax m)
    /\ Spec.maximum_of ys (Glyph.Metrics.yMax m)
    /\ Glyph.Metrics.leftSideBearing m = 0%float
    /\ Glyph.Metrics.rightSideBearing m
       = (Glyph.advanceWidth g - Glyph.Metrics.leftSideBearing m
          - (Glyph.Metrics.xMax m - Glyph.Metrics.xMin m))%float.
Proof.
  intros Hpath xs ys.
  unfold Glyph.getMetrics. rewrite Hpath. cbn [deref bind].
  rewrite GetMetrics.loop_collects. cbn [app].
  eexists. split; [reflexivity|].
  cbn [Glyph.Metrics.xMin Glyph.Metrics.yMin Glyph.Metrics.xMax
         Glyph.Metrics.yMax Glyph.Metrics.leftSideBearing
         Glyph.Metrics.rightSideBearing].
  split; [apply Extremes.Math_min_is_minimum|].
  split; [apply Extremes.Math_min_is_minimum|].
  split; [apply Extremes.Math_max_is_maximum|].
  split; [apply Extremes.Math_max_is_maximum|].
  split; reflexivity.
Qed.

(** The outline Move(0,0), Line(10,0), Line(10,10), Line(0,10), Close with
    advance width 12 has the box 0..10 by 0..10 and the bearings 0 and 2;
    the outline M 3,4 L -1,7 L 8,-2, whose extremes are not at its first
    point, has the box -1..8 by -2..7 and the bearings 0 and 3. *)
Lemma getMetrics_reduces_collected_witness :
  (Glyph.getMetrics Examples.square_glyph
   = Normal {| Glyph.Metrics.xMin := 0; Glyph.Metrics.yMin := 0;
               Glyph.Metrics.xMax := 10; Glyph.Metrics.yMax := 10;
               Glyph.Metrics.leftSideBearing := 0;
               Glyph.Metrics.rightSideBearing := 2 |}
   /\ Spec.minimum_of [0; 10; 10; 0]%float 0
   /\ Spec.minimum_of [0; 0; 10; 10]%float 0
   /\ Spec.maximum_of [0; 10; 10; 0]%float 10
   /\ Spec.maximum_of [0; 0; 10; 10]%float 10)
  /\ (Glyph.getMetrics Examples.zigzag_glyph
      = Normal {| Glyph.Metrics.xMin := -1; Glyph.Metrics.yMin := -2;
                  Glyph.Metrics.xMax := 8; Glyph.Metrics.yMax := 7;
                  Glyph.Metrics.leftSideBearing := 0;
                  Glyph.Metrics.rightSideBearing := 3 |}
      /\ Spec.minimum_of [3; -1; 8]%float (-1)
      /\ Spec.minimum_of [4; 7; -2]%float (-2)
      /\ Spec.maximum_of [3; -1; 8]%float 8
      /\ Spec.maximum_of [4; 7; -2]%float 7).
Proof.
  split.
  - destruct (getMetrics_reduces_collected Examples.square_glyph Examples.square
                eq_refl) as (m & Hm & Hx & Hy & HX & HY & _).
    assert (E : {| Glyph.Metrics.xMin := 0; Glyph.Metrics.yMin := 0;
                   Glyph.Metrics.xMax := 10; Glyph.Metrics.yMax := 10;
                   Glyph.Metrics.leftSideBearing := 0;
                   Glyph.Metrics.rightSideBearing := 2 |} = m).
    { apply (f_equal (fun c => match c with
                               | Normal q => q
                               | Throw _ => m
                               end)) in Hm.
      exact Hm. }
    subst m. split; [exact Hm|]. split; [exact Hx|]. split; [exact Hy|].
    split; [exact HX|exact HY].
  - destruct (getMetrics_reduces_collected Examples.zigzag_glyph Examples.zigzag
                eq_refl) as (m & Hm & Hx & Hy & HX & HY & _).
    assert (E : {| Glyph.Metrics.xMin := -1; Glyph.Metrics.yMin := -2;
                   Glyph.Metrics.xMax := 8; Glyph.Metrics.yMax := 7;
                   Glyph.Metrics.leftSideBearing := 0;
                   Glyph.Metrics.rightSideBearing := 3 |} = m).
    { apply (f_equal (fun c => match c with
                               | Normal q => q
                               | Throw _ => m
                               end)) in Hm.
      exact Hm. }
    subst m. split; [exact Hm|]. split; [exact Hx|]. split; [exact Hy|].
    split; [exact HX|exact HY].
Defined.

End Reductions.

(** * Further properties of the code *)

(** ** The unicodes of a glyph *)

Module Unicodes.

(** After any number of [addUnicode] calls the given code points are
    appended to [unicodes] in the order of the calls, and [unicode] is that
    of the first call if [unicodes] was empty, unchanged otherwise; nothing
    else of the glyph changes. *)
Theorem addUnicode_first_call_wins (g : Glyph.Glyph) (added : list (option Z)) :
  let g' := fold_left Glyph.addUnicode added g in
  Glyph.unicodes g' = Glyph.unicodes g ++ added
  /\ Glyph.unicode g'
     = match Glyph.unicodes g, added with
       | [], u :: _ => u
       | _, _ => Glyph.unicode g
       end
  /\ Glyph.font g' = Glyph.font g
  /\ Glyph.path g' = Glyph.path g
  /\ Glyph.points g' = Glyph.points g
  /\ Glyph.advanceWidth g' = Glyph.advanceWidth g.
Proof.
  revert g. induction added as [|u added IH]; intros g; cbn [fold_left].
  - rewrite app_nil_r. now destruct (Glyph.unicodes g).
  - destruct (IH (Glyph.addUnicode g u)) as (Hl & Hu & Hf & Hp & Hpts & Ha).
    cbn zeta. rewrite Hl, Hu, Hf, Hp, Hpts, Ha.
    cbn [Glyph.addUnicode Glyph.unicodes Glyph.unicode Glyph.font Glyph.path
           Glyph.points Glyph.advanceWidth].
    rewrite <- app_assoc. repeat split.
    destruct (Glyph.unicodes g); reflexivity.
Qed.

Lemma addUnicode_keeps_first (g : Glyph.Glyph) (u : option Z) :
  Spec.unicode_is_first (Glyph.addUnicode g u)
  <-> Spec.unicode_is_first g.
Proof.
  unfold Spec.unicode_is_first.
  cbn [Glyph.addUnicode Glyph.unicodes Glyph.unicode].
  destruct (Glyph.unicodes g); cbn; tauto.
Qed.

(** A glyph that is constructed and then given any number of code points
    with [addUnicode] has its [unicode] first in [unicodes], except when
    it was constructed with [unicode: 0]: [options.unicode || undefined]
    drops the code point 0 from [unicode] while [unicodes] keeps it. *)
Theorem unicode_is_first_unless_zero
  (options : Glyph.Options) (added : list (option Z)) :
  Spec.unicode_is_first (fold_left Glyph.addUnicode added (Glyph.new options))
  <-> Glyph.o_unicode options <> Some 0%Z.
Proof.
  revert options.
  assert (Hfold : forall g,
             Spec.unicode_is_first (fold_left Glyph.addUnicode added g)
             <-> Spec.unicode_is_first g).
  { induction added as [|u added IH]; intros g; cbn [fold_left]; [tauto|].
    rewrite IH. apply addUnicode_keeps_first. }
  intros options. rewrite Hfold.
  unfold Spec.unicode_is_first, Glyph.new.
  cbn [Glyph.unicodes Glyph.unicode].
  destruct (Glyph.o_unicodes options) as [given|],
           (Glyph.o_unicode options) as [u|]; cbn [orb].
  - unfold truthy_int. destruct (Z.eqb_spec u 0) as [->|]; cbn;
      split; congruence.
  - split; [discriminate|reflexivity].
  - unfold truthy_int. destruct (Z.eqb_spec u 0) as [->|]; cbn;
      split; congruence.
  - split; [discriminate|exact (fun _ => I)].
Qed.

End Unicodes.

(** ** The contours of a glyph *)

Module Contours.

Lemma scan_from_closed (points : list Glyph.Point)
  (contours : list (list Glyph.Point)) (current : list Glyph.Point) :
  Forall Spec.closed_contour contours ->
  forallb (fun pt => negb (Glyph.lastPointOfContour pt)) current = true ->
  let st := fold_left Glyph.getContours_step points (contours, current) in
  Forall Spec.closed_contour (fst st)
  /\ forallb (fun pt => negb (Glyph.lastPointOfContour pt)) (snd st) = true.
Proof.
  revert contours current.
  induction points as [|pt points IH]; intros contours current Hc Hcur;
    cbn [fold_left Glyph.getContours_step].
  - now split.
  - destruct (Glyph.lastPointOfContour pt) eqn:Hpt; apply IH.
    + apply Forall_app. split; [exact Hc|].
      constructor; [|constructor]. now exists current, pt.
    + reflexivity.
    + exact Hc.
    + rewrite forallb_app, Hcur. cbn. now rewrite Hpt.
Qed.

(** Every contour [getContours] returns is a run of points of the list
    that ends with a flagged point and has no other flagged point. *)
Theorem getContours_contours_are_closed
  (g : Glyph.Glyph) (points : list Glyph.Point) :
  Glyph.points g = Some points ->
  Spec.ends_flagged points = true ->
  exists contours,
    Glyph.getContours g = Normal contours
    /\ Forall Spec.closed_contour contours
    /\ Forall (fun contour => contour <> []) contours.
Proof.
  intros Hpoints Hlast.
  unfold Glyph.getContours. rewrite Hpoints.
  destruct (scan_from_closed points [] [] (Forall_nil _) eq_refl) as [Hc _].
  apply GetContours.scan_leftover in Hlast. unfold GetContours.scan in Hlast.
  destruct (fold_left Glyph.getContours_step points ([], []))
    as [contours current].
  cbn [fst snd] in *. subst current. cbn.
  exists contours. repeat split; [exact Hc|].
  eapply Forall_impl; [|exact Hc].
  intros contour (init & last & -> & _). now destruct init.
Qed.

Lemma getContours_contours_are_closed_witness :
  exists contours,
    Glyph.getContours (Examples.with_points Examples.two_contours)
    = Normal contours
    /\ Forall Spec.closed_contour contours
    /\ Forall (fun contour => contour <> []) contours.
Proof.
  exact (getContours_contours_are_closed
           (Examples.with_points Examples.two_contours)
           Examples.two_contours eq_refl eq_refl).
Defined.

End Contours.

(** ** Paths put end to end *)

Module Extend.

Lemma traverse_app {A B : Type} (f : A -> completion B) (l1 l2 : list A) :
  Spec.traverse f (l1 ++ l2)
  = (b1 <- Spec.traverse f l1 ;;
     b2 <- Spec.traverse f l2 ;;
     Normal (b1 ++ b2)).
Proof.
  induction l1 as [|a l1 IH]; cbn [app Spec.traverse bind].
  - now destruct (Spec.traverse f l2).
  - destruct (f a) as [b|e]; cbn [bind]; [|reflexivity].
    rewrite IH.
    destruct (Spec.traverse f l1) as [b1|e]; cbn [bind]; [|reflexivity].
    now destruct (Spec.traverse f l2).
Qed.

Lemma join_app (a b : list string) :
  Spec.join (a ++ b) = Spec.join a +++ Spec.join b.
Proof.
  unfold Spec.join.
  induction a as [|x a IH]; cbn [app fold_right]; [reflexivity|].
  now rewrite IH, Strings.append_assoc.
Qed.

Lemma toPathData_of_commands (this : Path.Path) (decimalPlaces : option Z) :
  Path.toPathData this decimalPlaces
  = (texts <- Spec.traverse
                (Layout.command_text (or_default decimalPlaces 2%Z))
                (Path.commands this) ;;
     Normal (Spec.join texts)).
Proof. unfold Path.toPathData. now rewrite Layout.loop_join. Qed.

(** The path data of a path extended with another, given as a path or as
    its list of commands, is the path data of the first followed by that
    of the second; it throws what the first throws, else what the second
    throws. *)
Theorem toPathData_of_extended
  (this other : Path.Path) (decimalPlaces : option Z) :
  Path.toPathData (Path.extend this (inl other)) decimalPlaces
  = (d1 <- Path.toPathData this decimalPlaces ;;
     d2 <- Path.toPathData other decimalPlaces ;;
     Normal (d1 +++ d2))
  /\ Path.extend this (inr (Path.commands other))
     = Path.extend this (inl other).
Proof.
  split; [|reflexivity].
  rewrite !toPathData_of_commands.
  cbn [Path.extend Path.commands]. rewrite traverse_app.
  destruct (Spec.traverse _ (Path.commands this)) as [t1|e];
    cbn [bind]; [|reflexivity].
  destruct (Spec.traverse _ (Path.commands other)) as [t2|e];
    cbn [bind]; [|reflexivity].
  now rewrite join_app.
Qed.

(** Drawing an extended path sends the outline of the first path, then
    the outline of the second, then the paint of the first: the fill and
    the stroke of the appended path are dropped. *)
Theorem draw_of_extended
  (S : Type) (sink : Path.Context2D S) (this other : Path.Path) (s : S) :
  snd (Path.draw (Path.extend this (inl other)) (s, []))
  = Path.BeginPath
    :: map Path.call_of (Path.commands this)
    ++ map Path.call_of (Path.commands other)
    ++ Path.paint_calls this
  /\ Path.fill (Path.extend this (inl other)) = Path.fill this
  /\ Path.stroke (Path.extend this (inl other)) = Path.stroke this
  /\ Path.strokeWidth (Path.extend this (inl other)) = Path.strokeWidth this.
Proof.
  rewrite Draw.draw_observed. unfold Spec.calls.
  cbn [snd Path.extend Path.commands Path.fill Path.stroke Path.strokeWidth].
  rewrite map_app, <- app_assoc. repeat split.
Qed.

End Extend.

(** ** Drawing a glyph *)

Module GlyphDraw.

(** [Glyph.draw] sends the context [beginPath], then one call per stored
    command with its points placed as by [getPath], then the fill style
    ['black'] and [fill], and never a stroke; without a font or without a
    path it throws a [TypeError] and the context receives nothing. *)
Theorem draw_fills_the_placed_outline
  (S : Type) (sink : Path.Context2D S) (g : Glyph.Glyph) (s : S)
  (x y fontSize : option float) :
  (forall font stored,
     Glyph.font g = Some font ->
     Glyph.path g = Some stored ->
     let ox := or_default x 0%float in
     let oy := or_default y 0%float in
     let scale := (1 / Glyph.unitsPerEm font * or_default fontSize 72)%float in
     exists s',
       Glyph.draw g (s, []) x y fontSize
       = Normal
           (s',
            Path.BeginPath
            :: map (fun cmd =>
                      Path.call_of (Spec.map_points (Spec.place ox oy scale) cmd))
                 (Path.commands stored)
            ++ [Path.SetFillStyle "black"; Path.Fill]))
  /\ (Glyph.font g = None \/ Glyph.path g = None ->
      exists msg, Glyph.draw g (s, []) x y fontSize = Throw (TypeError msg)).
Proof.
  split.
  - intros font stored Hfont Hpath ox oy scale.
    unfold Glyph.draw, Glyph.getPath. rewrite Hfont, Hpath.
    cbn [deref bind]. fold ox oy scale.
    rewrite GetPath.loop_commands, Draw.draw_observed.
    eexists. f_equal. f_equal. unfold Spec.calls.
    cbn [Path.commands Path.new app]. now rewrite map_map.
  - unfold Glyph.draw, Glyph.getPath.
    destruct (Glyph.font g) as [font|]; cbn [deref bind]; [|eauto].
    destruct (Glyph.path g) as [stored|]; cbn [deref bind]; [|eauto].
    intros [H|H]; discriminate H.
Qed.

#[local] Existing Instance Examples.null_sink.

(** The single point (500, 300) of a font of 1000 units per em, at the
    default size: one [moveTo], then the black fill. *)
Lemma draw_fills_the_placed_outline_witness :
  Glyph.draw Examples.point_glyph (tt, []) None None None
  = Normal
      (tt,
       [Path.BeginPath; Path.CallMoveTo 0x1.2000000000001p+5 (-21.6);
        Path.SetFillStyle "black"; Path.Fill]).
Proof.
  destruct (proj1 (draw_fills_the_placed_outline unit Examples.null_sink
                     Examples.point_glyph tt None None None)
              {| Glyph.unitsPerEm := 1000 |} (Path.moveTo Path.new 500 300)
              eq_refl eq_refl) as [[] Hdraw].
  exact Hdraw.
Defined.

End GlyphDraw.

(** ** Marking the points of a glyph *)

Module Points.

Import Canvas.

#[local] Existing Instance Examples.null_sink.
#[local] Existing Instance Examples.null_arc_sink.

Lemma step_marks (blue red : list (float * float)) (cmd : Command) :
  Glyph.drawPoints_step (blue, red) cmd
  = (blue ++ map Spec.flip (Spec.endpoints cmd),
     red ++ map Spec.flip (Spec.control_points cmd)).
Proof.
  destruct cmd; cbn; rewrite <- ?app_assoc, ?app_nil_r; reflexivity.
Qed.

Lemma loop_marks (cmds : list Command) (blue red : list (float * float)) :
  fold_left Glyph.drawPoints_step cmds (blue, red)
  = (blue ++ map Spec.flip (flat_map Spec.endpoints cmds),
     red ++ map Spec.flip (flat_map Spec.control_points cmds)).
Proof.
  revert blue red.
  induction cmds as [|cmd cmds IH]; intros blue red;
    cbn [fold_left flat_map map].
  - now rewrite !app_nil_r.
  - rewrite step_marks, IH, !map_app, !app_assoc. reflexivity.
Qed.

Lemma marked_flipped (x y scale : float) (pt : float * float) :
  Spec.marked_at x y scale (Spec.flip pt) = Spec.place x y scale pt.
Proof.
  destruct pt as [px py]. unfold Spec.marked_at, Spec.flip, Spec.place.
  cbn [fst snd]. now rewrite FloatFacts.add_opp_mul.
Qed.

Section Sink.

Context {S : Type} `{Path.Context2D S} `{Glyph.ArcContext S}.

Lemma circles_loop_observed (x y scale : float) (l : list (float * float))
  (s : S) (log : list CanvasCall) :
  exists s',
    fold_left (Glyph.drawCircles_step x y scale (Glyph.Math_PI * 2)) l (s, log)
    = (s', log ++ flat_map Spec.mark (map (Spec.marked_at x y scale) l)).
Proof.
  revert s log.
  induction l as [|pt l IH]; intros s log; cbn [fold_left map flat_map].
  - exists s. now rewrite app_nil_r.
  - edestruct IH as [s' Hs']. exists s'.
    unfold Glyph.drawCircles_step at 2.
    cbn [Path.ctx_moveTo Glyph.ctx_arc ObservedPath ObservedArc].
    rewrite Hs'. f_equal. rewrite <- !app_assoc. reflexivity.
Qed.

Lemma circles_observed (x y scale : float) (color : string)
  (l : list (float * float)) (s : S) (log : list CanvasCall) :
  exists s',
    Glyph.drawCircles (Path.ctx_set_fillStyle color (s, log)) l x y scale
    = (s', log ++ Spec.marks color (map (Spec.marked_at x y scale) l)).
Proof.
  unfold Glyph.drawCircles.
  cbn [Path.ctx_set_fillStyle Path.ctx_beginPath ObservedPath].
  edestruct circles_loop_observed as [s' ->].
  cbn [Path.ctx_closePath Path.ctx_fill ObservedPath].
  eexists. f_equal. unfold Spec.marks.
  rewrite <- !app_assoc. reflexivity.
Qed.

End Sink.

(** [drawPoints] marks, with a circle of radius 2, first and in blue the
    endpoints of the commands of [getPath(x, y, size)], then and in red
    their control points, both in the order of the commands, where [size]
    is the given font size, or 24 when it is left out (and not the 72 of
    [getPath] and [draw]). *)
Theorem drawPoints_marks_the_placed_points
  (S : Type) (sink : Path.Context2D S) (arcs : Glyph.ArcContext S)
  (g : Glyph.Glyph) (font : Glyph.Font) (stored : Path.Path) (s : S)
  (x y fontSize : option float) :
  Glyph.font g = Some font ->
  Glyph.path g = Some stored ->
  exists (p : Path.Path) (s' : S),
    Glyph.getPath g x y (Some (or_default fontSize 24%float)) = Normal p
    /\ Glyph.drawPoints g (s, []) x y fontSize
       = Normal
           (s',
            Spec.marks "blue" (flat_map Spec.endpoints (Path.commands p))
            ++ Spec.marks "red" (flat_map Spec.control_points (Path.commands p))).
Proof.
  intros Hfont Hpath.
  destruct (GetPath.getPath_commands g font stored x y
              (Some (or_default fontSize 24%float)) Hfont Hpath)
    as (p & Hp & Hcmds).
  exists p.
  unfold Glyph.drawPoints. rewrite Hfont, Hpath. cbn [deref bind].
  rewrite loop_marks. cbn [app].
  cbn [or_default] in Hcmds.
  set (ox := or_default x 0%float) in *. set (oy := or_default y 0%float) in *.
  set (scale := (1 / Glyph.unitsPerEm font * or_default fontSize 24)%float) in *.
  edestruct (circles_observed ox oy scale "blue") as [s1 ->].
  edestruct (circles_observed ox oy scale "red") as [s2 ->].
  cbn [app].
  exists s2. split; [exact Hp|]. f_equal. f_equal.
  rewrite Hcmds, !map_map.
  rewrite !(map_ext _ _ (marked_flipped ox oy scale)).
  assert (Hends : forall cmds,
             map (Spec.place ox oy scale) (flat_map Spec.endpoints cmds)
             = flat_map Spec.endpoints
                 (map (Spec.map_points (Spec.place ox oy scale)) cmds)).
  { induction cmds as [|cmd cmds IH]; cbn [flat_map map]; [reflexivity|].
    rewrite map_app, IH. f_equal. destruct cmd; reflexivity. }
  assert (Hctl : forall cmds,
             map (Spec.place ox oy scale) (flat_map Spec.control_points cmds)
             = flat_map Spec.control_points
                 (map (Spec.map_points (Spec.place ox oy scale)) cmds)).
  { induction cmds as [|cmd cmds IH]; cbn [flat_map map]; [reflexivity|].
    rewrite map_app, IH. f_equal. destruct cmd; reflexivity. }
  now rewrite Hends, Hctl.
Qed.

(** The curve C (1,2) (3,4) (5,6) of a font of 1000 units per em, marked
    at size 1000: the endpoint in blue, then the two control points in
    red, with y negated. *)
Lemma drawPoints_marks_the_placed_points_witness :
  Glyph.drawPoints Examples.curve_glyph (tt, []) None None (Some 1000%float)
  = Normal
      (tt,
       Spec.marks "blue" [(5, -6)%float]
       ++ Spec.marks "red" [(1, -2)%float; (3, -4)%float]).
Proof.
  destruct (drawPoints_marks_the_placed_points unit Examples.null_sink
              Examples.null_arc_sink Examples.curve_glyph
              {| Glyph.unitsPerEm := 1000 |}
              (Path.curveTo Path.new 1 2 3 4 5 6) tt None None
              (Some 1000%float) eq_refl eq_refl)
    as (p & [] & Hp & Hdraw).
  rewrite Hdraw. clear Hdraw.
  apply (f_equal (fun c => match c with
                           | Normal q => Path.commands q
                           | Throw _ => []
                           end)) in Hp.
  cbn [Path.commands] in Hp. rewrite <- Hp. reflexivity.
Defined.

End Points.

(** ** When toPathData throws *)

Module Throws.

(** The test [Math.round(v) === v] of [floatToString] fails exactly for
    [NaN] and for the finite numbers that are not whole. *)
Lemma round_test (v : float) :
  (Math_round v =? v)%float = negb (Spec.needs_toFixed v).
Proof.
  unfold Spec.needs_toFixed.
  destruct (Prim2SF v) as [s|s| |s m e] eqn:Hv.
  - apply Doubles.round_test_integral. unfold is_integral. now rewrite Hv.
  - unfold Math_round. rewrite Hv. apply Doubles.eqb_self.
    apply Doubles.prim_not_nan. rewrite Hv. discriminate.
  - unfold Math_round. rewrite Hv. rewrite eqb_spec, Hv. reflexivity.
  - destruct (integral_mantissa m e) eqn:Hint.
    + apply Doubles.round_test_integral. unfold is_integral. now rewrite Hv.
    + now apply (Doubles.round_test_fractional v s m e).
Qed.

Lemma floatToString_outcome (d : Z) (v : float) :
  Path.floatToString d v
  = if Spec.needs_toFixed v && ((d <? 0)%Z || (100 <? d)%Z)
    then Throw (RangeError Spec.out_of_range_message)
    else Normal (Spec.rendered d v).
Proof.
  unfold Spec.rendered, Path.floatToString. rewrite round_test.
  destruct (Spec.needs_toFixed v); cbn [negb andb]; [|reflexivity].
  unfold Number_toFixed.
  destruct ((d <? 0)%Z || (100 <? d)%Z); [reflexivity|].
  destruct (Prim2SF v) as [s|s| |s m e]; try reflexivity.
  now destruct (_ <=? _)%Z.
Qed.

Lemma traverse_throws {A B : Type} (f : A -> completion B) (e : error)
  (l : list A) :
  (forall a, In a l -> (exists b, f a = Normal b) \/ f a = Throw e) ->
  (exists a, In a l /\ f a = Throw e) ->
  Spec.traverse f l = Throw e.
Proof.
  induction l as [|a l IH]; intros Hall (a0 & Hin & Hthrow); [destruct Hin|].
  cbn [Spec.traverse].
  destruct (Hall a (or_introl eq_refl)) as [[b Hb]| ->]; [|reflexivity].
  rewrite Hb. cbn [bind]. rewrite IH; [reflexivity| |].
  - intros a' Ha'. apply Hall. now right.
  - destruct Hin as [<-|Hin]; [congruence|]. now exists a0.
Qed.

(** [toPathData] throws only for a [decimalPlaces] outside 0..100, and
    then only if some coordinate is [NaN] or not a whole number: it then
    throws the [RangeError] of [toFixed].  In every other case it returns;
    a path whose coordinates are all whole prints with any
    [decimalPlaces]. *)
Theorem toPathData_throws_out_of_range_only
  (this : Path.Path) (decimalPlaces : option Z) :
  let d := or_default decimalPlaces 2%Z in
  let fails :=
    ((d < 0)%Z \/ (100 < d)%Z)
    /\ exists cmd v,
         In cmd (Path.commands this) /\ In v (Spec.coordinates cmd)
         /\ Spec.needs_toFixed v = true in
  (fails ->
   Path.toPathData this decimalPlaces
   = Throw (RangeError "toFixed() digits argument must be between 0 and 100"))
  /\ (~ fails -> exists text, Path.toPathData this decimalPlaces = Normal text).
Proof.
  intros d fails. rewrite Extend.toPathData_of_commands. fold d. split.
  - intros (Hd & cmd & v & Hcmd & Hv & Hfixed).
    assert (Hrange : ((d <? 0)%Z || (100 <? d)%Z) = true).
    { apply orb_true_iff. destruct Hd; [left; apply Z.ltb_lt|right; apply Z.ltb_lt];
        assumption. }
    rewrite (traverse_throws (Layout.command_text d)
               (RangeError Spec.out_of_range_message)); [reflexivity| |].
    + intros cmd' _. unfold Layout.command_text.
      destruct (Spec.traverse (Path.floatToString d) (Spec.coordinates cmd'))
        as [texts|e] eqn:E; cbn [bind]; [eauto|right].
      revert e E. generalize (Spec.coordinates cmd') as l.
      induction l as [|v' l IH]; intros e; cbn [Spec.traverse]; [discriminate|].
      rewrite floatToString_outcome, Hrange, andb_true_r.
      destruct (Spec.needs_toFixed v'); cbn [bind]; [congruence|].
      destruct (Spec.traverse (Path.floatToString d) l) as [texts|e'];
        cbn [bind]; [discriminate|].
      intros [= <-]. now rewrite (IH e' eq_refl).
    + exists cmd. split; [exact Hcmd|]. unfold Layout.command_text.
      rewrite (traverse_throws (Path.floatToString d)
                 (RangeError Spec.out_of_range_message)); [reflexivity| |].
      * intros v' _. rewrite floatToString_outcome.
        destruct (_ && _); eauto.
      * exists v. split; [exact Hv|].
        now rewrite floatToString_outcome, Hfixed, Hrange.
  - intros Hnot.
    assert (Hnum : forall cmd v,
               In cmd (Path.commands this) -> In v (Spec.coordinates cmd) ->
               Path.floatToString d v = Normal (Spec.rendered d v)).
    { intros cmd v Hcmd Hv. rewrite floatToString_outcome.
      destruct (Spec.needs_toFixed v) eqn:Hfixed; [|reflexivity].
      destruct ((d <? 0)%Z || (100 <? d)%Z) eqn:Hrange; [|reflexivity].
      exfalso. apply Hnot. split.
      - apply orb_true_iff in Hrange as [H|H]; apply Z.ltb_lt in H; auto.
      - now exists cmd, v. }
    rewrite (Format.traverse_map (Layout.command_text d)
               (fun cmd => Cmd.type cmd
                           +++ Spec.packed (Spec.coordinates cmd)
                                 (map (Spec.rendered d) (Spec.coordinates cmd)))).
    + cbn [bind]. eauto.
    + intros cmd Hcmd. unfold Layout.command_text.
      rewrite (Format.traverse_map (Path.floatToString d) (Spec.rendered d));
        [reflexivity|].
      intros v Hv. now apply (Hnum cmd).
Qed.

(** A path of whole coordinates printed with 500 decimal places. *)
Lemma toPathData_throws_out_of_range_only_witness :
  Path.toPathData Examples.square (Some 500%Z) = Normal "M0 0L10 0L10 10L0 10Z"
  /\ Path.toPathData (Examples.with_commands [MoveTo 0.5 0]) (Some 500%Z)
     = Throw (RangeError "toFixed() digits argument must be between 0 and 100").
Proof.
  split; [reflexivity|].
  apply (proj1 (toPathData_throws_out_of_range_only
                  (Examples.with_commands [MoveTo 0.5 0]) (Some 500%Z))).
  split; [right; reflexivity|].
  exists (MoveTo 0.5 0), 0.5%float.
  repeat split; [now left|now left].
Defined.

End Throws.

(** ** The path element of toSVG *)

Module Element.

(** [toSVG] throws exactly what [toPathData] throws; otherwise it
    returns one self-closing [path] element whose [d] attribute is the
    text of [toPathData], followed by the [fill] attribute, if any, and by
    the [stroke] and [stroke-width] attributes exactly when [stroke] is a
    non-empty string, the width printed as a number.  The [fill] attribute
    is never written for a [null] fill nor for ['black']. *)
Theorem toSVG_wraps_the_path_data
  (StringToNumber : string -> float) (this : Path.Path)
  (decimalPlaces : option Z) :
  Path.toSVG StringToNumber this decimalPlaces
  = (d <- Path.toPathData this decimalPlaces ;;
     Normal ("<path d=" +++ dquote +++ d +++ dquote
             +++ Spec.fill_attribute StringToNumber (Path.fill this)
             +++ Spec.stroke_attributes this +++ "/>"))
  /\ Spec.fill_attribute StringToNumber None = EmptyString
  /\ Spec.fill_attribute StringToNumber (Some "black") = EmptyString
  /\ (Spec.stroke_attributes this = EmptyString <-> truthy (Path.stroke this) = false)
  /\ (forall color,
        Path.stroke this = Some color -> truthy_string color = true ->
        Spec.stroke_attributes this
        = " stroke=" +++ dquote +++ color +++ dquote +++ " stroke-width="
          +++ dquote +++ Number_toString (Path.strokeWidth this) +++ dquote).
Proof.
  split; [|split; [|split; [|split]]].
  - unfold Path.toSVG, Spec.fill_attribute, Spec.stroke_attributes.
    destruct (Path.toPathData this decimalPlaces) as [d|e]; cbn [bind];
      [|reflexivity].
    f_equal.
    destruct (truthy_int _), (Path.fill this) as [fill|],
      (Path.stroke this) as [stroke|];
      try destruct (truthy_string stroke); cbn [or_default];
      rewrite ?Strings.append_assoc, ?Strings.append_nil_r; cbn [String.append];
      reflexivity.
  - reflexivity.
  - unfold Spec.fill_attribute, Path.fill_condition.
    cbn [String.eqb Ascii.eqb Bool.eqb]. now rewrite Z.land_0_r.
  - unfold Spec.stroke_attributes, truthy.
    destruct (Path.stroke this) as [color|]; [|tauto].
    destruct (truthy_string color); [|tauto].
    split; [|discriminate]. cbn. discriminate.
  - intros color Hstroke Htruthy. unfold Spec.stroke_attributes.
    now rewrite Hstroke, Htruthy.
Qed.

(** A red line stroked with width 1.5 and no fill. *)
Lemma toSVG_wraps_the_path_data_witness :
  Path.toSVG (fun _ => nan)
    {| Path.commands := [MoveTo 0 0; LineTo 10.5 (-3)];
       Path.fill := None; Path.stroke := Some "red";
       Path.strokeWidth := 1.5 |} None
  = Normal ("<path d=" +++ dquote +++ "M0 0L10.50-3" +++ dquote
            +++ " stroke=" +++ dquote +++ "red" +++ dquote
            +++ " stroke-width=" +++ dquote +++ "1.5" +++ dquote +++ "/>").
Proof.
  destruct (toSVG_wraps_the_path_data (fun _ => nan)
              {| Path.commands := [MoveTo 0 0; LineTo 10.5 (-3)];
                 Path.fill := None; Path.stroke := Some "red";
                 Path.strokeWidth := 1.5 |} None)
    as (Hsvg & _ & _ & _ & Hstroke).
  rewrite Hsvg, (Hstroke "red" eq_refl eq_refl). reflexivity.
Defined.

End Element.


(** ** The box of getMetrics *)

Module Box.

Open Scope Z_scope.

(** When no coordinate of the outline is [NaN] and the outline has a
    coordinate, the box of [getMetrics] holds every endpoint and every
    control point, and each of its four sides goes through one of them. *)
Theorem getMetrics_box_holds_every_point (g : Glyph.Glyph) (stored : Path.Path) :
  Glyph.path g = Some stored ->
  let pts := flat_map Spec.collected (Path.commands stored) in
  pts <> [] ->
  Forall (fun pt => Spec.number (fst pt) /\ Spec.number (snd pt)) pts ->
  exists m : Glyph.Metrics.Metrics,
    Glyph.getMetrics g = Normal m
    /\ In (Glyph.Metrics.xMin m) (map fst pts)
    /\ In (Glyph.Metrics.xMax m) (map fst pts)
    /\ In (Glyph.Metrics.yMin m) (map snd pts)
    /\ In (Glyph.Metrics.yMax m) (map snd pts)
    /\ forall x y,
         In (x, y) pts ->
         (Glyph.Metrics.xMin m <=? x)%float = true
         /\ (x <=? Glyph.Metrics.xMax m)%float = true
         /\ (Glyph.Metrics.yMin m <=? y)%float = true
         /\ (y <=? Glyph.Metrics.yMax m)%float = true.
Proof.
  intros Hpath pts Hne Hnum.
  unfold Glyph.getMetrics. rewrite Hpath. cbn [deref bind].
  rewrite GetMetrics.loop_collects. cbn [app].
  unfold Spec.collected_x, Spec.collected_y. fold pts.
  assert (Hxs : Forall Spec.number (map fst pts)).
  { apply Forall_map. eapply Forall_impl; [|exact Hnum]. now intros pt [? _]. }
  assert (Hys : Forall Spec.number (map snd pts)).
  { apply Forall_map. eapply Forall_impl; [|exact Hnum]. now intros pt [_ ?]. }
  assert (Hxne : map fst pts <> []) by (now destruct pts).
  assert (Hyne : map snd pts <> []) by (now destruct pts).
  destruct (Extremes.Math_min_least _ Hxs Hxne) as (_ & Hxmin & Hxle).
  destruct (Extremes.Math_max_greatest _ Hxs Hxne) as (_ & Hxmax & Hxge).
  destruct (Extremes.Math_min_least _ Hys Hyne) as (_ & Hymin & Hyle).
  destruct (Extremes.Math_max_greatest _ Hys Hyne) as (_ & Hymax & Hyge).
  eexists. split; [reflexivity|].
  cbn [Glyph.Metrics.xMin Glyph.Metrics.xMax Glyph.Metrics.yMin
         Glyph.Metrics.yMax].
  repeat split; try assumption.
  - apply Hxle. now apply (in_map fst pts (x, y)).
  - apply Hxge. now apply (in_map fst pts (x, y)).
  - apply Hyle. now apply (in_map snd pts (x, y)).
  - apply Hyge. now apply (in_map snd pts (x, y)).
Qed.

(** The box of the curve C (1,2) (3,4) (5,6) goes from (1, 2) to (5, 6). *)
Lemma getMetrics_box_holds_every_point_witness :
  exists m : Glyph.Metrics.Metrics,
    Glyph.getMetrics Examples.curve_glyph = Normal m
    /\ Glyph.Metrics.xMin m = 1%float /\ Glyph.Metrics.xMax m = 5%float
    /\ Glyph.Metrics.yMin m = 2%float /\ Glyph.Metrics.yMax m = 6%float.
Proof.
  destruct (getMetrics_box_holds_every_point Examples.curve_glyph
              (Path.curveTo Path.new 1 2 3 4 5 6) eq_refl)
    as (m & Hm & _).
  - discriminate.
  - repeat constructor.
  - exists m. split; [exact Hm|].
    apply (f_equal (fun c => match c with
                             | Normal q => q
                             | Throw _ => m
                             end)) in Hm.
    cbn in Hm. rewrite <- Hm. repeat split.
Defined.

(** One [NaN] among the x coordinates of the outline makes [xMin], [xMax]
    and [rightSideBearing] all [NaN], whatever the other coordinates. *)
Theorem getMetrics_of_NaN (g : Glyph.Glyph) (stored : Path.Path) :
  Glyph.path g = Some stored ->
  Exists (fun x => is_nan x = true) (Spec.collected_x (Path.commands stored)) ->
  exists m : Glyph.Metrics.Metrics,
    Glyph.getMetrics g = Normal m
    /\ Glyph.Metrics.xMin m = nan
    /\ Glyph.Metrics.xMax m = nan
    /\ Glyph.Metrics.rightSideBearing m = nan.
Proof.
  intros Hpath Hnan.
  unfold Glyph.getMetrics. rewrite Hpath. cbn [deref bind].
  rewrite GetMetrics.loop_collects. cbn [app].
  eexists. split; [reflexivity|].
  cbn [Glyph.Metrics.xMin Glyph.Metrics.xMax Glyph.Metrics.rightSideBearing].
  unfold Math_min, Math_max.
  rewrite (Extremes.min_from_NaN _ infinity Hnan), (Extremes.max_from_NaN _ neg_infinity Hnan).
  repeat split. now rewrite !Extremes.sub_NaN.
Qed.

(** A line to (NaN, 1) after a move to (0, 0). *)
Lemma getMetrics_of_NaN_witness :
  exists m : Glyph.Metrics.Metrics,
    Glyph.getMetrics Examples.broken_glyph = Normal m
    /\ Glyph.Metrics.xMin m = nan
    /\ Glyph.Metrics.xMax m = nan
    /\ Glyph.Metrics.rightSideBearing m = nan.
Proof.
  apply (getMetrics_of_NaN Examples.broken_glyph
           (Path.lineTo (Path.moveTo Path.new 0 0) nan 1) eq_refl).
  right. now left.
Defined.

End Box.

(** ** Reading back what is printed *)

Module Reading.

Open Scope Z_scope.

Lemma read_from_shift (s : string) (acc : Z) :
  Spec.read_from acc s
  = acc * 10 ^ Z.of_nat (String.length s) + Spec.read_digits s.
Proof.
  unfold Spec.read_digits. revert acc.
  induction s as [|c s IH]; intros acc; cbn [Spec.read_from String.length].
  - change (10 ^ Z.of_nat 0) with 1. lia.
  - rewrite IH, (IH (10 * 0 + Spec.digit_value c)).
    rewrite Nat2Z.inj_succ, Z.pow_succ_r by lia. lia.
Qed.

Lemma read_digits_append (a b : string) :
  Spec.read_digits (a +++ b)
  = Spec.read_digits a * 10 ^ Z.of_nat (String.length b) + Spec.read_digits b.
Proof.
  assert (H : forall acc,
             Spec.read_from acc (a +++ b)
             = Spec.read_from (Spec.read_from acc a) b).
  { induction a as [|c a IH]; intros acc; cbn [String.append Spec.read_from];
      [reflexivity|apply IH]. }
  unfold Spec.read_digits at 1. rewrite H. apply read_from_shift.
Qed.

Lemma read_digits_zeros (n : nat) : Spec.read_digits (zeros n) = 0.
Proof.
  unfold Spec.read_digits.
  induction n as [|n IH]; cbn [zeros Spec.read_from]; [reflexivity|].
  exact IH.
Qed.

Lemma digit_value_char (d : Z) :
  0 <= d < 10 -> Spec.digit_value (digit_char d) = d.
Proof.
  intros Hd. unfold Spec.digit_value, digit_char.
  rewrite nat_ascii_embedding by lia. lia.
Qed.

Lemma read_digits_fuel (fuel : nat) (n : Z) (acc : string) :
  0 <= n < 10 ^ Z.of_nat fuel ->
  Spec.read_digits (digits_fuel fuel n acc)
  = n * 10 ^ Z.of_nat (String.length acc) + Spec.read_digits acc.
Proof.
  revert n acc.
  induction fuel as [|fuel IH]; intros n acc Hn; cbn [digits_fuel].
  - change (10 ^ Z.of_nat 0) with 1 in Hn. replace n with 0 by lia. lia.
  - assert (Hstep : forall d, 0 <= d < 10 ->
               Spec.read_digits (String (digit_char d) acc)
               = d * 10 ^ Z.of_nat (String.length acc) + Spec.read_digits acc).
    { intros d Hd. unfold Spec.read_digits at 1. cbn [Spec.read_from].
      rewrite read_from_shift, digit_value_char by exact Hd. lia. }
    destruct (n <? 10) eqn:E.
    + apply Z.ltb_lt in E. rewrite Hstep by (apply Z.mod_pos_bound; lia).
      now rewrite Z.mod_small by lia.
    + apply Z.ltb_ge in E.
      rewrite IH.
      * rewrite Hstep by (apply Z.mod_pos_bound; lia).
        cbn [String.length]. rewrite Nat2Z.inj_succ, Z.pow_succ_r by lia.
        pose proof (Z.div_mod n 10 ltac:(lia)). lia.
      * rewrite Nat2Z.inj_succ, Z.pow_succ_r in Hn by lia.
        split; [apply Z.div_pos; lia|].
        apply Z.div_lt_upper_bound; lia.
Qed.

(** The digits of a number read back as the number. *)
Lemma read_digits_of (n : Z) : 0 <= n -> Spec.read_digits (digits_of n) = n.
Proof.
  intros Hn. unfold digits_of. rewrite read_digits_fuel.
  - cbn [String.length]. change (10 ^ Z.of_nat 0) with 1.
    change (Spec.read_digits EmptyString) with 0. lia.
  - split; [exact Hn|].
    rewrite Nat2Z.inj_succ, Z2Nat.id by apply Z.log2_nonneg.
    destruct (Z.eq_dec n 0) as [->|Hn0]; [reflexivity|].
    pose proof (Z.log2_spec n ltac:(lia)) as [_ Hlog].
    apply Z.lt_le_trans with (2 ^ Z.succ (Z.log2 n)); [exact Hlog|].
    apply Z.pow_le_mono_l. pose proof (Z.log2_nonneg n). lia.
Qed.

End Reading.

(** ** Whole coordinates are printed exactly *)

Module Exact.

Open Scope Z_scope.

(** A candidate, scaled, is at least the lower end of the interval. *)
Lemma candidate_lower (m : positive) (e p t : Z) :
  candidate m e p = Some t ->
  lo m e * scaleB e p <= t * scaleA e p.
Proof.
  unfold candidate.
  pose proof (Shortest.scaleA_pos e p) as HA.
  set (A := scaleA e p) in *. set (B := scaleB e p) in *.
  set (t_lo := if closed m then cdiv (lo m e * B) A else lo m e * B / A + 1).
  set (t_hi := if closed m then hi m * B / A else cdiv (hi m * B) A - 1).
  destruct (t_lo <=? t_hi) eqn:E; [|discriminate].
  apply Z.leb_le in E. intros [= <-].
  assert (Hlo : lo m e * B <= t_lo * A).
  { unfold t_lo, cdiv. destruct (closed m).
    - pose proof (Z.mul_div_le (- (lo m e * B)) A HA). lia.
    - pose proof (Z.div_mod (lo m e * B) A ltac:(lia)) as Hdm.
      pose proof (Z.mod_pos_bound (lo m e * B) A HA). nia. }
  set (near := if _ <? _ then _ else _).
  assert (t_lo <= Z.max t_lo (Z.min t_hi near)) by lia.
  nia.
Qed.

Lemma Prim2SF_2p53 :
  Prim2SF 0x1p53 = S754_finite false 4503599627370496 1.
Proof. reflexivity. Qed.

(** Below [2^53] in magnitude the exponent is not positive. *)
Lemma below_2p53 (v : float) (s : bool) (m : positive) (e : Z) :
  Prim2SF v = S754_finite s m e ->
  (abs v <? 0x1p53)%float = true ->
  e <= 0.
Proof.
  intros Hv H. rewrite ltb_spec, abs_spec, Hv, Prim2SF_2p53 in H.
  apply Whole.SFltb_finite in H.
  destruct (Doubles.finite_bounds v s m e Hv) as (_ & _ & Hnormal).
  change (2 ^ 52) with 4503599627370496 in Hnormal. lia.
Qed.

(** The text of a whole number below [2^53] in magnitude: its sign and
    digits that read back as its magnitude. *)
Lemma toString_of_safe_integer (v : float) (s : bool) (m : positive) (e : Z) :
  Prim2SF v = S754_finite s m e ->
  integral_mantissa m e = true ->
  e <= 0 ->
  exists digits : string,
    Number_toString v = (if s then "-" else EmptyString) +++ digits
    /\ Spec.all_digits digits = true
    /\ Spec.read_digits digits * 2 ^ (- e) = Zpos m.
Proof.
  intros Hv Hint He0. unfold Number_toString. rewrite Hv.
  destruct (Doubles.finite_bounds v s m e Hv) as (Hm & He & _).
  assert (He17 : e < 17 \/ e = 17 /\ Zpos m < 7629394531250000)
    by (left; lia).
  pose proof (Whole.upper_end_below m e Hm He17) as Hup.
  pose proof (Whole.whole_has_bits m e Hint) as Hbits.
  pose proof (Doubles.digits2_bounds m) as [Hdlo _].
  assert (Hd : Zpos (digits2_pos m) <= 53).
  { destruct (Z.le_gt_cases (Zpos (digits2_pos m)) 53) as [|Hgt]; [assumption|].
    assert (2 ^ 53 <= 2 ^ (Zpos (digits2_pos m) - 1))
      by (apply Z.pow_le_mono_r; lia).
    lia. }
  assert (Hbound : 0 <= decimal_bound m e < 40).
  { unfold decimal_bound.
    assert (0 <= (Zpos (digits2_pos m) + e) * 30103 / 100000)
      by (apply Z.div_pos; lia).
    assert ((Zpos (digits2_pos m) + e) * 30103 / 100000 < 30)
      by (apply Z.div_lt_upper_bound; lia).
    lia. }
  destruct (Shortest.search_finds m e 40 (decimal_bound m e) 0)
    as (t & p & Hs & Hp & Hc);
    [lia|now apply Shortest.candidate_of_whole|].
  unfold shortest. rewrite Hs.
  destruct (Shortest.candidate_range m e p t Hc) as [Ht Hscaled].
  pose proof (candidate_lower m e p t Hc) as Hlower.
  unfold scaleA, scaleB in Hscaled, Hlower.
  rewrite (Z.max_l p 0), (Z.max_r (- p) 0) in Hscaled, Hlower by lia.
  rewrite (Z.max_l (2 - e) 0), (Z.max_r (e - 2) 0) in Hscaled, Hlower, Hup by lia.
  change (10 ^ 0) with 1 in Hscaled, Hlower. change (2 ^ 0) with 1 in *.
  assert (H2e : 0 < 2 ^ (- e)) by (apply Z.pow_pos_nonneg; lia).
  assert (H22e : 2 ^ (2 - e) = 4 * 2 ^ (- e)).
  { replace (2 - e) with (2 + - e) by lia. now rewrite Z.pow_add_r by lia. }
  assert (H10p : 0 < 10 ^ p) by (apply Z.pow_pos_nonneg; lia).
  assert (Hval : t * 10 ^ p < 10 ^ 21) by nia.
  assert (Hp20 : p <= 20).
  { destruct (Z.le_gt_cases p 20) as [|Hgt]; [assumption|].
    assert (10 ^ 21 <= 10 ^ p) by (apply Z.pow_le_mono_r; lia). nia. }
  assert (Ht' : t < 10 ^ (21 - p)).
  { replace (10 ^ 21) with (10 ^ (21 - p) * 10 ^ p) in Hval
      by (rewrite <- Z.pow_add_r by lia; f_equal; lia).
    nia. }
  pose proof (Digits.length_digits_of t (Z.to_nat (21 - p))) as Hlen.
  rewrite Z2Nat.id in Hlen by lia.
  specialize (Hlen ltac:(lia) ltac:(lia)).
  exists (digits_of t +++ zeros (Z.to_nat p)). split; [|split].
  - f_equal. unfold format_digits.
    replace (_ && _) with true.
    + do 2 f_equal. lia.
    + symmetry. apply andb_true_iff. split; apply Z.leb_le; lia.
  - rewrite Digits.all_digits_append, Digits.all_digits_of,
      Digits.all_digits_zeros. reflexivity.
  - rewrite Reading.read_digits_append, Reading.read_digits_zeros,
      Digits.length_zeros, Reading.read_digits_of, Z2Nat.id by lia.
    rewrite Z.add_0_r.
    assert (Hdiv : exists V, Zpos m = V * 2 ^ (- e)).
    { unfold integral_mantissa in Hint. apply orb_true_iff in Hint.
      destruct (Z.eq_dec e 0) as [->|Hne].
      - exists (Zpos m). change (2 ^ (- 0)) with 1. lia.
      - destruct Hint as [Hint|Hint]; [apply Z.leb_le in Hint; lia|].
        apply Z.eqb_eq in Hint.
        apply Z.mod_divide in Hint; [|lia]. exact Hint. }
    destruct Hdiv as [V HV]. rewrite HV.
    unfold lo, hi, below in *. rewrite H22e in *.
    set (P := 2 ^ (- e)) in *. set (T := t * 10 ^ p) in *.
    assert (Hl : 4 * (V * P) - 2 <= T * (4 * P))
      by (destruct (_ && _); lia).
    assert (HT : T = V) by nia.
    rewrite HT. reflexivity.
Qed.

Lemma read_integer_digits (digits : string) :
  Spec.all_digits digits = true ->
  Spec.read_integer digits = Spec.read_digits digits.
Proof.
  destruct digits as [|c rest]; [reflexivity|].
  cbn [Spec.all_digits Spec.read_integer]. intros H.
  apply andb_true_iff in H as [Hc _].
  destruct (Ascii.eqb_spec c "-"%char) as [->|]; [discriminate Hc|reflexivity].
Qed.

(** A coordinate that is a whole number below [2^53] in magnitude is
    printed exactly, whatever [decimalPlaces]: the text [floatToString]
    returns is a decimal integer that reads back as the coordinate. *)
Theorem whole_coordinate_reads_back (d : Z) (v : float) :
  is_integral v = true ->
  (abs v <? 0x1p53)%float = true ->
  exists text : string,
    Path.floatToString d v = Normal text
    /\ Spec.has_point text = false
    /\ Spec.read_integer text = Spec.integer_value v.
Proof.
  intros Hint Hlt. unfold Path.floatToString.
  rewrite (Doubles.round_test_integral v Hint),
    (Doubles.round_of_integral v Hint).
  cbn [String.append]. eexists. split; [reflexivity|].
  unfold is_integral in Hint. unfold Spec.integer_value.
  destruct (Prim2SF v) as [s|s| |s m e] eqn:Hv; try discriminate.
  - unfold Number_toString. rewrite Hv. split; reflexivity.
  - pose proof (below_2p53 v s m e Hv Hlt) as He0.
    destruct (toString_of_safe_integer v s m e Hv Hint He0)
      as (digits & -> & Hdigits & Hread).
    split; [now apply Fixed.has_point_signed_digits|].
    assert (H2e : 0 < 2 ^ (- e)) by (apply Z.pow_pos_nonneg; lia).
    assert (Hmag : (if 0 <=? e then Zpos m * 2 ^ e else Zpos m / 2 ^ (- e))
                   = Spec.read_digits digits).
    { destruct (Z.leb_spec 0 e) as [He|He].
      - replace e with 0 in * by lia. change (2 ^ (- 0)) with 1 in Hread.
        change (2 ^ 0) with 1. lia.
      - rewrite <- Hread. now rewrite Z.div_mul by lia. }
    rewrite Hmag. destruct s.
    + cbn [String.append Spec.read_integer]. reflexivity.
    + cbn [String.append]. now apply read_integer_digits.
Qed.

(** The coordinate -1234567 *)
Lemma whole_coordinate_reads_back_witness :
  Path.floatToString 2 (-1234567) = Normal "-1234567"
  /\ Spec.read_integer "-1234567" = Spec.integer_value (-1234567).
Proof.
  destruct (whole_coordinate_reads_back 2 (-1234567) eq_refl eq_refl)
    as (text & Htext & _ & Hread).
  assert (E : text = "-1234567"%string).
  { apply (f_equal (fun c => match c with
                             | Normal t => t
                             | Throw _ => EmptyString
                             end)) in Htext.
    rewrite <- Htext. reflexivity. }
  subst text. split; [exact Htext|exact Hread].
Defined.

End Exact.

(** ** Other coordinates are printed rounded *)

Module Rounded.

Open Scope Z_scope.









End Rounded.
